(** * Partenaire en Parole: a shallow embedding of the conversation client

    The development follows the TypeScript sources:
    - [types.ts]: the configuration and message records;
    - [components/SetupForm]: [handleSubmit], which builds the [AppConfig];
    - [services/gemini.ts]: the system instruction template, the text chat
      service and the live (speech) service with its playback cursor and
      teardown;
    - [components/ChatInterface.tsx]: [handleSend] and [initChat];
    - [components/LiveInterface]: [startSession], [endSession] and the
      pulse of [drawVisualizer];
    - [App]: the choice of the screen.

    Conventions.  A JavaScript string is a sequence of code units; the model
    uses [string], one [ascii] per code unit, which covers the code units
    below 256.  A JavaScript number that holds a time, a sample or a mean is
    a rational ([Q]) standing for a finite double.  [Math.max], comparisons,
    a product or a quotient by a power of two and a sum of a few bytes are
    exact on doubles and are the operations of [Q]; a sum of times and the
    quotient that gives a duration are rounded, and the rounding is a
    parameter ([Rounding]).  Byte arrays are lists of [byte].  Objects handed out by the platform (audio
    contexts, streams, nodes, promises) are values of small inductive types;
    a nullable field is an [option]. *)

From Stdlib Require Import ZArith QArith Qminmax Qround Qabs Lia Lqa List Bool
  Ascii String Sorted.
From coqutil Require Byte.
Import ListNotations.

(* ===================================================================== *)
(** ** JavaScript string primitives used by the sources *)
(* ===================================================================== *)

Module Js.
Local Open Scope string_scope.

(** [WhiteSpace] and [LineTerminator] code units below 256: TAB, LF, VT,
    FF, CR, SPACE and NO-BREAK SPACE. *)
Definition is_whitespace (c : ascii) : bool :=
  let n := nat_of_ascii c in
  ((9 <=? n) && (n <=? 13) || (n =? 32) || (n =? 160))%nat.

(** [String.prototype.trimStart]. *)
Fixpoint trimStart (s : string) : string :=
  match s with
  | EmptyString => EmptyString
  | String c r => if is_whitespace c then trimStart r else s
  end.

(** [String.prototype.trimEnd]. *)
Fixpoint trimEnd (s : string) : string :=
  match s with
  | EmptyString => EmptyString
  | String c r =>
      match trimEnd r with
      | EmptyString => if is_whitespace c then EmptyString else String c EmptyString
      | r' => String c r'
      end
  end.

(** [String.prototype.trim]. *)
Definition trim (s : string) : string := trimEnd (trimStart s).

(** [s.split(sep)] for a separator of one code unit; the empty string
    splits into one empty piece. *)
Fixpoint split (sep : ascii) (s : string) : list string :=
  match s with
  | EmptyString => [EmptyString]
  | String c r =>
      if Ascii.eqb c sep then EmptyString :: split sep r
      else match split sep r with
           | [] => [String c EmptyString]
           | piece :: pieces => String c piece :: pieces
           end
  end.

(** [arr.join(sep)]. *)
Definition join (sep : string) (l : list string) : string := String.concat sep l.

(** [s.includes(sub)]. *)
Fixpoint includes (s sub : string) : bool :=
  String.prefix sub s ||
  match s with
  | EmptyString => false
  | String _ r => includes r sub
  end.

(** Truthiness of a string: only the empty string is falsy. *)
Definition truthy (s : string) : bool := negb (String.eqb s EmptyString).

(** [a || b] on strings. *)
Definition or_else (a b : string) : string := if truthy a then a else b.

(** A string that [trim] reduces to nothing. *)
Definition whitespace_only (s : string) : Prop :=
  Forall (fun c => is_whitespace c = true) (list_ascii_of_string s).
End Js.

(* ===================================================================== *)
(** ** types.ts *)
(* ===================================================================== *)

Inductive ProficiencyLevel := A1 | A2.

Definition ProficiencyLevel_value (l : ProficiencyLevel) : string :=
  match l with A1 => "A1" | A2 => "A2" end.

Inductive InteractionMode := TEXT | SPEECH.

Definition InteractionMode_value (m : InteractionMode) : string :=
  match m with TEXT => "Text" | SPEECH => "Speech" end.

Record AppConfig := mkAppConfig {
  level : ProficiencyLevel;
  words : list string;
  topic : string;
  mode : InteractionMode
}.

Inductive Role := user | model.

Record ChatMessage := mkChatMessage {
  role : Role;
  text : string;
  timestamp : Z
}.

(* ===================================================================== *)
(** ** components/SetupForm: handleSubmit *)
(* ===================================================================== *)

Module SetupForm.
Local Open Scope string_scope.

(** The component state ([useState] cells). *)
Record State := mkState {
  st_level : ProficiencyLevel;
  wordsInput : string;
  st_topic : string;
  st_mode : InteractionMode;
  error : string
}.

(** The initial values of the [useState] cells. *)
Definition initial : State :=
  {| st_level := A1;
     wordsInput := "maison, chat, manger, aimer, le livre";
     st_topic := EmptyString;
     st_mode := TEXT;
     error := EmptyString |}.

(** [wordsInput.split(',').map(w => w.trim()).filter(w => w.length > 0)]. *)
Definition parse_words (input : string) : list string :=
  filter (fun w => (0 <? String.length w)%nat)
         (map Js.trim (Js.split "," input)).

(** [handleSubmit]: the new component state and the argument of the
    [onStart] call, if it is made. *)
Definition handleSubmit (s : State) : State * option AppConfig :=
  let ws := parse_words (wordsInput s) in
  if (List.length ws <? 1)%nat then
    ({| st_level := st_level s; wordsInput := wordsInput s;
        st_topic := st_topic s; st_mode := st_mode s;
        error := "Please provide at least a few words." |}, None)
  else
    (s, Some {| level := st_level s;
                words := ws;
                topic := Js.or_else (st_topic s) "Daily Life";
                mode := st_mode s |}).
End SetupForm.

(* ===================================================================== *)
(** ** services/gemini.ts: the system instruction *)
(* ===================================================================== *)

Module Template.
Local Open Scope string_scope.

(** [SYSTEM_INSTRUCTION_TEMPLATE]: the template literal, piece by piece;
    every line break of the literal is a line feed. *)
Definition SYSTEM_INSTRUCTION_TEMPLATE (config : AppConfig) : string :=
  "
Role: French Vocabulary Conversation Partner.
Objective: Act as an encouraging French tutor focused on "
  ++ ProficiencyLevel_value (level config) ++ " proficiency.
Context: " ++ Js.or_else (topic config) "General Conversation" ++ ".
Target Words: " ++ Js.join ", " (words config) ++ ".

Rules:
1. Respond entirely in French.
2. Integrate target words naturally over time.
3. If using a word beyond " ++ ProficiencyLevel_value (level config)
  ++ ", provide inline translation: word [meaning].
4. Keep responses short (1-3 sentences).
5. Do not correct mistakes immediately; model correct usage in your response.
6. Ask 1-2 questions at a time to keep conversation flowing.
7. If the user wants to stop, provide a short English summary of their performance.
".
End Template.

(* ===================================================================== *)
(** ** Asynchronous results *)
(* ===================================================================== *)

(** How an awaited promise settles. *)
Inductive Settled (A : Type) : Type :=
| Fulfilled (a : A)
| Rejected.
Arguments Fulfilled {A} a.
Arguments Rejected {A}.

(* ===================================================================== *)
(** ** services/gemini.ts: GeminiChatService *)
(* ===================================================================== *)

Module GeminiChatService.
(** The stateful conversational handle held in [this.chat]. *)
Inductive Chat := chat_handle.

Record t := mk { chat : option Chat }.

(** Requests that reach the remote peer. *)
Inductive Request := chat_sendMessage (message : string).

(** [sendMessage(text)]: throws when the chat is not initialised;
    otherwise forwards the text and settles as the remote call does.
    [response.text] may be undefined, hence the [option]. *)
Definition sendMessage (svc : t) (txt : string)
    (remote : Settled (option string)) : Settled (option string) * list Request :=
  match chat svc with
  | None => (Rejected, [])
  | Some _ => (remote, [chat_sendMessage txt])
  end.
End GeminiChatService.

(* ===================================================================== *)
(** ** components/ChatInterface.tsx: handleSend *)
(* ===================================================================== *)

Module ChatInterface.
Record State := mkState {
  messages : list ChatMessage;
  inputValue : string;
  isLoading : bool;
  chatServiceRef : option GeminiChatService.t
}.

(** Calls made on the chat service object. *)
Inductive ServiceCall := sendMessage (txt : string).

Definition setMessages (f : list ChatMessage -> list ChatMessage) (s : State) :=
  {| messages := f (messages s); inputValue := inputValue s;
     isLoading := isLoading s; chatServiceRef := chatServiceRef s |}.
Definition setInputValue (v : string) (s : State) :=
  {| messages := messages s; inputValue := v;
     isLoading := isLoading s; chatServiceRef := chatServiceRef s |}.
Definition setIsLoading (b : bool) (s : State) :=
  {| messages := messages s; inputValue := inputValue s;
     isLoading := b; chatServiceRef := chatServiceRef s |}.

(** A value of [responseText] that passes [if (responseText)]. *)
Definition truthy_text (r : option string) : option string :=
  match r with
  | Some t => if Js.truthy t then Some t else None
  | None => None
  end.

(** [handleSend].  [now1] and [now2] are the two readings of [Date.now()],
    [remote] is how the remote call settles.  The result is the component
    state once the handler has run to its end, with the calls it made on
    the service. *)
Definition handleSend (now1 now2 : Z) (remote : Settled (option string))
    (s : State) : State * list ServiceCall :=
  match negb (Js.truthy (Js.trim (inputValue s))), chatServiceRef s, isLoading s with
  | true, _, _ | _, None, _ | _, _, true => (s, [])
  | false, Some svc, false =>
        let userMsg := {| role := user; text := inputValue s; timestamp := now1 |} in
        let s1 := setMessages (fun prev => prev ++ [userMsg]) s in
        let s2 := setInputValue EmptyString s1 in
        let s3 := setIsLoading true s2 in
        let s4 :=
          (* try / catch *)
          match fst (GeminiChatService.sendMessage svc (text userMsg) remote) with
          | Fulfilled responseText =>
              match truthy_text responseText with
              | Some t =>
                  setMessages (fun prev =>
                    prev ++ [{| role := model; text := t; timestamp := now2 |}]) s3
              | None => s3
              end
          | Rejected => s3
          end in
        (* finally *)
        (setIsLoading false s4, [sendMessage (text userMsg)])
  end.
End ChatInterface.

(* ===================================================================== *)
(** ** The audio platform (Web Audio, media capture) *)
(* ===================================================================== *)

(** An [AudioContext], told apart by its sample rate. *)
Record AudioContext := mkAudioContext { ctx_sampleRate : positive }.

Record MediaStreamTrack := mkTrack { track_id : nat }.

Record MediaStream := mkMediaStream { getTracks : list MediaStreamTrack }.

(** A mono [AudioBuffer]: its frames and its sample rate. *)
Record AudioBuffer := mkAudioBuffer {
  buf_sampleRate : positive;
  channelData : list Q
}.

(** Rounding to a double, on finite values: it keeps the order, it leaves
    what it returns unchanged, and zero is a double. *)
Class Rounding := {
  round : Q -> Q;
  round_monotone : forall x y : Q, (x <= y)%Q -> (round x <= round y)%Q;
  round_idempotent : forall x : Q, (round (round x) == round x)%Q;
  round_zero : (round 0 == 0)%Q
}.

(** A rational that is a double. *)
Definition representable `{Rounding} (x : Q) : Prop := (round x == x)%Q.

(** Arithmetic without rounding. *)
#[export] Instance exact_arithmetic : Rounding := {|
  round := fun x => x;
  round_monotone := fun _ _ H => H;
  round_idempotent := fun x => Qeq_refl x;
  round_zero := Qeq_refl 0
|}.

(** [audioBuffer.duration]: the number of frames over the sample rate. *)
Definition duration `{Rounding} (b : AudioBuffer) : Q :=
  round (Z.of_nat (List.length (channelData b)) # buf_sampleRate b).

(** The gain node created by [connect] and passed to the playback path. *)
Record GainNode := mkGainNode { gain_context : AudioContext }.

(** A buffer source that has been started: what it plays, where it is
    connected and the time given to [start]. *)
Record AudioBufferSourceNode := mkSource {
  buffer : AudioBuffer;
  connectedTo : GainNode;
  startedAt : Q
}.

Record MediaStreamAudioSourceNode := mkStreamSource {
  src_context : AudioContext;
  src_stream : MediaStream
}.

Record ScriptProcessorNode := mkProcessor {
  proc_context : AudioContext;
  bufferSize : positive;
  inputChannels : positive;
  outputChannels : positive
}.

(** How the remote handshake of [ai.live.connect] ends. *)
Inductive Handshake := Established | HandshakeFailed.

Inductive Modality := AUDIO.

(** The promise returned by [ai.live.connect]: the parameters it was
    created with and how it settles. *)
Record SessionPromise := mkSessionPromise {
  live_model : string;
  responseModalities : list Modality;
  voiceName : string;
  systemInstruction : string;
  settles : Handshake
}.

(** The callback stored in [onVolumeChange]; the interface installs
    [vol => setVolume(vol)]. *)
Inductive VolumeCallback := call_setVolume.

(** Calls on platform objects made by the teardown. *)
Inductive Effect :=
| session_close (p : SessionPromise)
| source_stop (s : AudioBufferSourceNode)
| track_stop (t : MediaStreamTrack)
| inputSource_disconnect (n : MediaStreamAudioSourceNode)
| processor_disconnect (n : ScriptProcessorNode)
| context_close (c : AudioContext).

(** Whether a call returns or throws. *)
Inductive Outcome (A : Type) : Type :=
| Returns (a : A)
| Throws (e : Effect).
Arguments Returns {A} a.
Arguments Throws {A} e.

(* ===================================================================== *)
(** ** services/gemini.ts: GeminiLiveService *)
(* ===================================================================== *)

Module GeminiLiveService.
Local Open Scope Q_scope.

(** The private fields of the class. *)
Record t := mk {
  sessionPromise : option SessionPromise;
  inputAudioContext : option AudioContext;
  outputAudioContext : option AudioContext;
  nextStartTime : Q;
  sources : list AudioBufferSourceNode;
  stream : option MediaStream;
  processor : option ScriptProcessorNode;
  inputSource : option MediaStreamAudioSourceNode;
  gainNode : option GainNode;
  onVolumeChange : option VolumeCallback
}.

(** The field initialisers: [new GeminiLiveService()]. *)
Definition new : t :=
  {| sessionPromise := None; inputAudioContext := None;
     outputAudioContext := None; nextStartTime := 0; sources := [];
     stream := None; processor := None; inputSource := None;
     gainNode := None; onVolumeChange := None |}.

(** Field assignments. *)
Definition set_sessionPromise v (s : t) : t :=
  mk v (inputAudioContext s) (outputAudioContext s) (nextStartTime s) (sources s)
     (stream s) (processor s) (inputSource s) (gainNode s) (onVolumeChange s).
Definition set_inputAudioContext v (s : t) : t :=
  mk (sessionPromise s) v (outputAudioContext s) (nextStartTime s) (sources s)
     (stream s) (processor s) (inputSource s) (gainNode s) (onVolumeChange s).
Definition set_outputAudioContext v (s : t) : t :=
  mk (sessionPromise s) (inputAudioContext s) v (nextStartTime s) (sources s)
     (stream s) (processor s) (inputSource s) (gainNode s) (onVolumeChange s).
Definition set_nextStartTime v (s : t) : t :=
  mk (sessionPromise s) (inputAudioContext s) (outputAudioContext s) v (sources s)
     (stream s) (processor s) (inputSource s) (gainNode s) (onVolumeChange s).
Definition set_sources v (s : t) : t :=
  mk (sessionPromise s) (inputAudioContext s) (outputAudioContext s) (nextStartTime s) v
     (stream s) (processor s) (inputSource s) (gainNode s) (onVolumeChange s).
Definition set_stream v (s : t) : t :=
  mk (sessionPromise s) (inputAudioContext s) (outputAudioContext s) (nextStartTime s)
     (sources s) v (processor s) (inputSource s) (gainNode s) (onVolumeChange s).
Definition set_processor v (s : t) : t :=
  mk (sessionPromise s) (inputAudioContext s) (outputAudioContext s) (nextStartTime s)
     (sources s) (stream s) v (inputSource s) (gainNode s) (onVolumeChange s).
Definition set_inputSource v (s : t) : t :=
  mk (sessionPromise s) (inputAudioContext s) (outputAudioContext s) (nextStartTime s)
     (sources s) (stream s) (processor s) v (gainNode s) (onVolumeChange s).
Definition set_onVolumeChange v (s : t) : t :=
  mk (sessionPromise s) (inputAudioContext s) (outputAudioContext s) (nextStartTime s)
     (sources s) (stream s) (processor s) (inputSource s) (gainNode s) v.

(** *** connect *)

Definition inputContext := mkAudioContext 16000.
Definition outputContext := mkAudioContext 24000.

(** [outputNode], local to [connect] and captured by its callbacks. *)
Definition outputNode : GainNode := mkGainNode outputContext.

(** [connect(config, onDisconnect)].  [mic] is how [getUserMedia] settles
    and [handshake] how the remote session will be established.  The two
    contexts are created first; the capture stream is awaited; the promise
    of [ai.live.connect] is stored as it is returned, without awaiting it. *)
Definition connect (config : AppConfig) (mic : Settled MediaStream)
    (handshake : Handshake) (s : t) : Settled unit * t :=
  let s1 := set_inputAudioContext (Some inputContext) s in
  let s2 := set_outputAudioContext (Some outputContext) s1 in
  match mic with
  | Rejected => (Rejected, s2)
  | Fulfilled media =>
      let s3 := set_stream (Some media) s2 in
      let promise :=
        {| live_model := "gemini-2.5-flash-native-audio-preview-09-2025";
           responseModalities := [AUDIO];
           voiceName := "Fenrir";
           systemInstruction := Template.SYSTEM_INSTRUCTION_TEMPLATE config;
           settles := handshake |} in
      (Fulfilled tt, set_sessionPromise (Some promise) s3)
  end.

(** *** startAudioInput, run by the [onopen] callback *)

Definition startAudioInput (s : t) : t :=
  match inputAudioContext s, stream s, sessionPromise s with
  | Some ctx, Some media, Some _ =>
      let s1 := set_inputSource (Some (mkStreamSource ctx media)) s in
      set_processor (Some (mkProcessor ctx 4096 1 1)) s1
  | _, _, _ => s
  end.

(** *** The volume report of the capture callback *)

Definition fftSize : nat := 256.
Definition frequencyBinCount : nat := Nat.div fftSize 2.

Definition byte_value (b : Byte.byte) : Z := Z.of_N (Byte.to_N b).

(** [dataArray.reduce((a, b) => a + b)]: no initial value, so the first
    element starts the sum and an empty array is a [TypeError]. *)
Definition reduce_add (dataArray : list Byte.byte) : option Z :=
  match dataArray with
  | [] => None
  | b :: rest => Some (fold_left (fun a b => (a + byte_value b)%Z) rest (byte_value b))
  end.

(** The first statements of [processor.onaudioprocess], with [dataArray]
    as [getByteFrequencyData] filled it: [None] if the sum throws,
    otherwise the argument passed to [onVolumeChange], if one is
    installed.  Encoding and sending the frame come after the report. *)
Definition onaudioprocess_volume (s : t) (dataArray : list Byte.byte)
    : option (option Q) :=
  match reduce_add dataArray with
  | None => None
  | Some sum =>
      let average := inject_Z sum / inject_Z (Z.of_nat (List.length dataArray)) in
      Some (match onVolumeChange s with
            | Some call_setVolume => Some average
            | None => None
            end)
  end.

(** *** playAudioResponse *)

Section Playback.
Context `{R : Rounding}.

(** Up to the [await]: the guard and the move of the cursor to the clock
    of the output context.  [None] is the early return. *)
Definition playAudioResponse_begin (currentTime : Q) (s : t) : option t :=
  match outputAudioContext s with
  | None => None
  | Some _ => Some (set_nextStartTime (Qmax (nextStartTime s) currentTime) s)
  end.

(** After the [await], with the decoded buffer: the source is created,
    connected, started at the cursor, the cursor advances by the duration
    and the source joins the set.  [None] is the [TypeError] raised when
    the output context has been cleared meanwhile. *)
Definition playAudioResponse_resume (audioBuffer : AudioBuffer) (node : GainNode)
    (s : t) : option (t * AudioBufferSourceNode) :=
  match outputAudioContext s with
  | None => None
  | Some _ =>
      let source := {| buffer := audioBuffer; connectedTo := node;
                       startedAt := nextStartTime s |} in
      let s1 := set_nextStartTime
                  (round (nextStartTime s + duration audioBuffer)) s in
      Some (set_sources (sources s1 ++ [source]) s1, source)
  end.

(** [playAudioResponse] when nothing else runs during the [await].
    [decoded] is the result of [decodeAudioData(decode(base64Audio), ...)],
    [None] if it throws.  The result is the service afterwards and the
    source that was started, if any. *)
Definition playAudioResponse (currentTime : Q) (decoded : option AudioBuffer)
    (node : GainNode) (s : t) : t * option AudioBufferSourceNode :=
  match playAudioResponse_begin currentTime s with
  | None => (s, None)
  | Some s1 =>
      match decoded with
      | None => (s1, None)
      | Some audioBuffer =>
          match playAudioResponse_resume audioBuffer node s1 with
          | None => (s1, None)
          | Some (s2, source) => (s2, Some source)
          end
      end
  end.

(** One inbound chunk: the clock of the output context when it is handled
    and the buffer it decodes to. *)
Record Chunk := mkChunk { arrival : Q; decodedBuffer : AudioBuffer }.

(** What one call did to the playback timeline. *)
Record Scheduled := mkScheduled {
  clock : Q;          (* the context's current time at the call *)
  cursor_before : Q;  (* [nextStartTime] on entry *)
  start : Q;          (* the argument of [source.start] *)
  length : Q;         (* the duration of the buffer *)
  cursor_after : Q    (* [nextStartTime] on exit *)
}.

(** The chunks handled one after the other, in arrival order. *)
Fixpoint play_all (chunks : list Chunk) (s : t) : t * list Scheduled :=
  match chunks with
  | [] => (s, [])
  | c :: rest =>
      let '(s1, started) :=
        playAudioResponse (arrival c) (Some (decodedBuffer c)) outputNode s in
      let '(s2, later) := play_all rest s1 in
      (s2, match started with
           | Some source =>
               {| clock := arrival c; cursor_before := nextStartTime s;
                  start := startedAt source;
                  length := duration (buffer source);
                  cursor_after := nextStartTime s1 |} :: later
           | None => later
           end)
  end.

(** Each call starts its buffer at the cursor it found, moved up to the
    clock, and leaves the cursor at the end of that buffer, where the next
    call finds it. *)
Fixpoint chained (cursor : Q) (sched : list Scheduled) : Prop :=
  match sched with
  | [] => True
  | r :: rest =>
      cursor_before r = cursor /\
      start r = Qmax cursor (clock r) /\
      cursor_after r = round (start r + length r) /\
      start r <= cursor_after r /\
      chained (cursor_after r) rest
  end.

(** *** Calls of [playAudioResponse] that overlap *)

(** What the service sees when a call can be suspended at its [await]
    while others begin: a message is taken up at some clock reading, or a
    pending decode completes with its buffer. *)
Inductive PlaybackEvent :=
| message_taken (currentTime : Q)
| decode_done (audioBuffer : AudioBuffer).

(** The service after a sequence of such events, with the sources that
    were started, in order.  A call that returns early or throws leaves
    the fields as they were. *)
Fixpoint run_events (events : list PlaybackEvent) (s : t)
    : t * list AudioBufferSourceNode :=
  match events with
  | [] => (s, [])
  | message_taken now :: rest =>
      match playAudioResponse_begin now s with
      | Some s1 => run_events rest s1
      | None => run_events rest s
      end
  | decode_done b :: rest =>
      match playAudioResponse_resume b outputNode s with
      | Some (s1, source) =>
          let '(s2, started) := run_events rest s1 in (s2, source :: started)
      | None => run_events rest s
      end
  end.

(** Sources that follow one another without overlap, from a bound on. *)
Fixpoint gapless (bound : Q) (started : list AudioBufferSourceNode) : Prop :=
  match started with
  | [] => True
  | source :: rest =>
      bound <= startedAt source /\
      gapless (round (startedAt source + duration (buffer source))) rest
  end.
End Playback.

(** *** disconnect *)

Section Teardown.
(** Which platform calls throw. *)
Variable throws : Effect -> bool.

(** Statements of a method: they read and write the fields, log the
    platform calls that were made, and return or throw. *)
Definition M (A : Type) : Type := t -> list Effect -> Outcome A * t * list Effect.

Definition ret {A} (a : A) : M A := fun s log => (Returns a, s, log).

Definition bind {A B} (m : M A) (k : A -> M B) : M B :=
  fun s log =>
    match m s log with
    | (Returns a, s', log') => k a s' log'
    | (Throws e, s', log') => (Throws e, s', log')
    end.

Definition get {A} (field : t -> A) : M A := fun s log => (Returns (field s), s, log).

Definition assign (update : t -> t) : M unit :=
  fun s log => (Returns tt, update s, log).

(** A call made now: it throws or it is done. *)
Definition invoke (e : Effect) : M unit :=
  fun s log => if throws e then (Throws e, s, log) else (Returns tt, s, log ++ [e]).

(** [promise.then(() => call)]: the call is left to a later job, and
    what happens to it there does not reach the caller. *)
Definition defer (e : Effect) : M unit :=
  fun s log => (Returns tt, s, log ++ [e]).

(** [if (x) ...] and [x?.f()] on a nullable field. *)
Definition whenSome {A} (o : option A) (k : A -> M unit) : M unit :=
  match o with
  | Some a => k a
  | None => ret tt
  end.

Fixpoint forEach {A} (l : list A) (k : A -> M unit) : M unit :=
  match l with
  | [] => ret tt
  | a :: rest => bind (k a) (fun _ => forEach rest k)
  end.

Notation "x <- m ;; k" := (bind m (fun x => k))
  (at level 61, m at next level, right associativity).
Notation "m ;; k" := (bind m (fun _ => k))
  (at level 61, right associativity).

Definition disconnect : M unit :=
  p <- get sessionPromise ;;
  whenSome p (fun promise => defer (session_close promise)) ;;
  playing <- get sources ;;
  forEach playing (fun s => invoke (source_stop s)) ;;
  assign (set_sources []) ;;
  media <- get stream ;;
  whenSome media (fun m => forEach (getTracks m) (fun t => invoke (track_stop t))) ;;
  i <- get inputSource ;;
  whenSome i (fun n => invoke (inputSource_disconnect n)) ;;
  pr <- get processor ;;
  whenSome pr (fun n => invoke (processor_disconnect n)) ;;
  ic <- get inputAudioContext ;;
  whenSome ic (fun c => invoke (context_close c)) ;;
  oc <- get outputAudioContext ;;
  whenSome oc (fun c => invoke (context_close c)) ;;
  assign (set_inputAudioContext None) ;;
  assign (set_outputAudioContext None) ;;
  assign (set_sessionPromise None).

(** A call of [disconnect()] on a service, with an empty log. *)
Definition run_disconnect (s : t) : Outcome unit * t * list Effect :=
  disconnect s [].
End Teardown.

(** A platform on which no call throws. *)
Definition no_throw : Effect -> bool := fun _ => false.

(** *** What a teardown that runs to its end has done *)

Definition opt_list {A} (o : option A) : list A :=
  match o with
  | Some a => [a]
  | None => []
  end.

Definition tracks_of (media : option MediaStream) : list MediaStreamTrack :=
  match media with
  | Some m => getTracks m
  | None => []
  end.

(** The calls that [disconnect] makes itself, in program order. *)
Definition direct_calls (s : t) : list Effect :=
  map source_stop (sources s)
  ++ map track_stop (tracks_of (stream s))
  ++ map inputSource_disconnect (opt_list (inputSource s))
  ++ map processor_disconnect (opt_list (processor s))
  ++ map context_close (opt_list (inputAudioContext s))
  ++ map context_close (opt_list (outputAudioContext s)).

(** All the calls of a teardown: the deferred closure of the session,
    then the direct ones. *)
Definition teardown_calls (s : t) : list Effect :=
  map session_close (opt_list (sessionPromise s)) ++ direct_calls s.

(** The fields once [disconnect] has run to its end. *)
Definition cleared (s : t) : t :=
  set_sessionPromise None
    (set_outputAudioContext None
      (set_inputAudioContext None
        (set_sources [] s))).

(** The arithmetic mean of the byte values of an array. *)
Definition mean (dataArray : list Byte.byte) : Q :=
  inject_Z (fold_right Z.add 0%Z (map byte_value dataArray))
  / inject_Z (Z.of_nat (List.length dataArray)).
End GeminiLiveService.

(* ===================================================================== *)
(** ** The four teardown steps, read off a log of platform calls *)
(* ===================================================================== *)

Module Teardown.
Import GeminiLiveService.

(** (a) closure of the remote session was requested. *)
Definition session_closed (s : t) (log : list Effect) : Prop :=
  forall p, sessionPromise s = Some p -> In (session_close p) log.

(** (b) every scheduled playback buffer was stopped. *)
Definition playback_stopped (s : t) (log : list Effect) : Prop :=
  forall src, In src (sources s) -> In (source_stop src) log.

(** (c) the capture device was stopped. *)
Definition capture_stopped (s : t) (log : list Effect) : Prop :=
  forall m tr, stream s = Some m -> In tr (getTracks m) -> In (track_stop tr) log.

(** (d) both audio contexts were released. *)
Definition contexts_closed (s : t) (log : list Effect) : Prop :=
  (forall c, inputAudioContext s = Some c -> In (context_close c) log) /\
  (forall c, outputAudioContext s = Some c -> In (context_close c) log).

(** All four steps were performed on the handles that [s] held. *)
Definition complete (s : t) (log : list Effect) : Prop :=
  session_closed s log /\ playback_stopped s log /\
  capture_stopped s log /\ contexts_closed s log.
End Teardown.

(* ===================================================================== *)
(** ** components/LiveInterface: startSession *)
(* ===================================================================== *)

Module LiveInterface.
Local Open Scope string_scope.

Record State := mkState {
  isActive : bool;
  volume : Q;
  error : string;
  liveServiceRef : option GeminiLiveService.t
}.

(** The initial values of the [useState] and [useRef] cells. *)
Definition initial : State :=
  {| isActive := false; volume := 0%Q; error := EmptyString; liveServiceRef := None |}.

Definition setIsActive (b : bool) (u : State) : State :=
  mkState b (volume u) (error u) (liveServiceRef u).
Definition setError (e : string) (u : State) : State :=
  mkState (isActive u) (volume u) e (liveServiceRef u).
Definition setVolume (v : Q) (u : State) : State :=
  mkState (isActive u) v (error u) (liveServiceRef u).
Definition setRef (r : option GeminiLiveService.t) (u : State) : State :=
  mkState (isActive u) (volume u) (error u) r.

(** The callback handed to [connect]: [() => setIsActive(false)]. *)
Definition onDisconnect (u : State) : State := setIsActive false u.

(** [startSession], run until the handler ends.  The service object held
    by the ref is the one [connect] worked on. *)
Definition startSession (config : AppConfig) (mic : Settled MediaStream)
    (handshake : Handshake) (u : State) : State :=
  let u1 := setError EmptyString u in
  let svc := GeminiLiveService.set_onVolumeChange (Some call_setVolume)
               GeminiLiveService.new in
  let '(result, svc') := GeminiLiveService.connect config mic handshake svc in
  let u2 := setRef (Some svc') u1 in
  match result with
  | Fulfilled _ => setIsActive true u2
  | Rejected =>
      setIsActive false
        (setError "Could not access microphone or connect to API." u2)
  end.

(** The session promise that the interface still holds, through its
    service object. *)
Definition retainedSession (u : State) : option SessionPromise :=
  match liveServiceRef u with
  | Some svc => GeminiLiveService.sessionPromise svc
  | None => None
  end.
End LiveInterface.

(* ===================================================================== *)
(** ** utils/audioUtils: the PCM wire format *)
(* ===================================================================== *)

Module AudioUtils.
Import coqutil.Byte.
Local Open Scope Q_scope.

(** The bounds of a 16-bit signed integer. *)
Definition int16_min : Z := (-32768)%Z.
Definition int16_max : Z := 32767%Z.

(** Clamp to [-1, 1]. *)
Definition clamp (x : Q) : Q := Qmax (-1) (Qmin 1 x).

(** The integer part of a rational, rounding toward zero. *)
Definition truncate (x : Q) : Z := Z.quot (Qnum x) (Zpos (Qden x)).

(** Modelled from the spec: the sample quantiser of [createPcmBlob], which
    is in utils/audioUtils and not among the sources.  The spec has each
    sample clamped to [-1,1] and scaled to the 16-bit signed integer range,
    with 1/32768 as the quantization step: the clamped sample is multiplied
    by 32768, its integer part is taken, and the result is kept inside
    [int16_min, int16_max]. *)
Definition to_int16 (x : Q) : Z :=
  Z.max int16_min (Z.min int16_max (truncate (clamp x * 32768))).

(** A 16-bit signed integer written little-endian, in two's complement. *)
Definition int16_le (v : Z) : list Byte.byte :=
  [byte.of_Z v; byte.of_Z (v / 256)].

(** Modelled from the spec: the binary payload of [createPcmBlob], which is
    in utils/audioUtils and not among the sources: every sample quantised
    and written little-endian, in order. *)
Definition pcm_payload (data : list Q) : list Byte.byte :=
  flat_map (fun x => int16_le (to_int16 x)) data.

Record Blob := mkBlob { mimeType : string; data : list Byte.byte }.

(** Modelled from the spec: [createPcmBlob] of utils/audioUtils, which is
    not among the sources: the payload with its declared MIME type.  The
    base64 text of the payload, used only for transport, is represented by
    the payload itself. *)
Definition createPcmBlob (samples : list Q) : Blob :=
  {| mimeType := "audio/pcm;rate=16000"; data := pcm_payload samples |}.

(** Two bytes read as a little-endian 16-bit signed integer. *)
Definition int16_of_le (lo hi : Byte.byte) : Z :=
  let u := (byte.unsigned lo + 256 * byte.unsigned hi)%Z in
  if (u <? 32768)%Z then u else (u - 65536)%Z.

(** The samples of a raw payload, normalised by 32768; a trailing odd byte
    is ignored. *)
Fixpoint pcm_samples (raw : list Byte.byte) : list Q :=
  match raw with
  | lo :: hi :: rest => (int16_of_le lo hi # 32768) :: pcm_samples rest
  | _ => []
  end.

(** Modelled from the spec: [decodeAudioData] of utils/audioUtils, which is
    not among the sources, for one channel: the raw bytes are read as
    16-bit signed little-endian PCM at the given sample rate and
    normalised to floating-point samples. *)
Definition decodeAudioData (rawBytes : list Byte.byte) (sampleRate : positive)
    : AudioBuffer :=
  {| buf_sampleRate := sampleRate; channelData := pcm_samples rawBytes |}.
End AudioUtils.

(* ===================================================================== *)
(** ** Concrete inputs *)
(* ===================================================================== *)

Module Scenario.
Local Open Scope string_scope.

(** The configuration of the scenario: level A1, two words, no topic,
    speech mode. *)
Definition config : AppConfig :=
  {| level := A1; words := ["maison"; "chat"]; topic := EmptyString; mode := SPEECH |}.

(** The setup form filled in the same way, the topic left blank. *)
Definition form : SetupForm.State :=
  {| SetupForm.st_level := A1;
     SetupForm.wordsInput := "maison, chat";
     SetupForm.st_topic := EmptyString;
     SetupForm.st_mode := SPEECH;
     SetupForm.error := EmptyString |}.

(** A chat that is ready, with a blank draft and with a real one. *)
Definition chat_ready (draft : string) : ChatInterface.State :=
  {| ChatInterface.messages :=
       [{| role := model; text := "Bonjour !"; timestamp := 0 |}];
     ChatInterface.inputValue := draft;
     ChatInterface.isLoading := false;
     ChatInterface.chatServiceRef :=
       Some (GeminiChatService.mk (Some GeminiChatService.chat_handle)) |}.

(** A capture stream with one track. *)
Definition media : MediaStream := mkMediaStream [mkTrack 0].

(** A service on which [connect] succeeded and the session opened. *)
Definition connected : GeminiLiveService.t :=
  GeminiLiveService.startAudioInput
    (snd (GeminiLiveService.connect config (Fulfilled media) Established
            (GeminiLiveService.set_onVolumeChange (Some call_setVolume)
               GeminiLiveService.new))).

(** Half a second of silence at the output rate. *)
Definition half_second : AudioBuffer :=
  mkAudioBuffer 24000 (repeat 0%Q (Pos.to_nat 12000)).

(** Three chunks of half a second handled back to back at clock 2. *)
Definition three_chunks : list GeminiLiveService.Chunk :=
  [GeminiLiveService.mkChunk 2 half_second;
   GeminiLiveService.mkChunk 2 half_second;
   GeminiLiveService.mkChunk 2 half_second].

(** The connected service with one response being played. *)
Definition playing : GeminiLiveService.t :=
  fst (GeminiLiveService.playAudioResponse 2 (Some (mkAudioBuffer 24000 [0%Q; 0%Q]))
         GeminiLiveService.outputNode connected).

(** A platform on which stopping a buffer source throws. *)
Definition stop_throws (e : Effect) : bool :=
  match e with
  | source_stop _ => true
  | _ => false
  end.
End Scenario.

(* ===================================================================== *)
(** ** services/gemini.ts: the message callback and the ended listener *)
(* ===================================================================== *)

Module LiveCallbacks.
Import GeminiLiveService.
Local Open Scope Q_scope.

(** The fields of an inbound message that the callback reads; every level
    may be absent. *)
Record InlineData := mkInlineData { data : option string }.
Record Part := mkPart { inlineData : option InlineData }.
Record ModelTurn := mkModelTurn { parts : option (list Part) }.
Record ServerContent := mkServerContent {
  modelTurn : option ModelTurn;
  turnComplete : option bool
}.
Record LiveServerMessage := mkLiveServerMessage {
  serverContent : option ServerContent
}.

(** [x?.f]: nothing when [x] is absent. *)
Definition chain {A B} (o : option A) (f : A -> option B) : option B :=
  match o with
  | Some a => f a
  | None => None
  end.

(** [message.serverContent?.modelTurn?.parts?.[0]?.inlineData?.data]. *)
Definition base64Audio (message : LiveServerMessage) : option string :=
  chain (serverContent message) (fun content =>
  chain (modelTurn content) (fun turn =>
  chain (parts turn) (fun ps =>
  chain (nth_error ps 0) (fun part =>
  chain (inlineData part) data)))).

Section Inbound.
Context `{R : Rounding}.

(** [decode] and [decodeAudioData] of utils/audioUtils, applied to a
    payload: the buffer, or nothing when they throw. *)
Variable decodeAudio : string -> option AudioBuffer.

(** The [onmessage] callback, the call of [playAudioResponse] run to its
    end.  [currentTime] is the clock of the output context.  The turn
    complete flag is read and nothing is done with it. *)
Definition onmessage (currentTime : Q) (message : LiveServerMessage) (s : t)
    : t * option AudioBufferSourceNode :=
  match base64Audio message, outputAudioContext s with
  | Some payload, Some _ =>
      if Js.truthy payload
      then playAudioResponse currentTime (decodeAudio payload) outputNode s
      else (s, None)
  | _, _ => (s, None)
  end.

(** Messages handled one after the other, each at its clock reading. *)
Fixpoint onmessage_all (arrivals : list (Q * LiveServerMessage)) (s : t) : t :=
  match arrivals with
  | [] => s
  | (now, message) :: rest => onmessage_all rest (fst (onmessage now message s))
  end.

(** The chunk that a message carries, if it carries audio that decodes. *)
Definition audio_chunk (arrival : Q * LiveServerMessage) : option Chunk :=
  match base64Audio (snd arrival) with
  | Some payload =>
      if Js.truthy payload
      then option_map (mkChunk (fst arrival)) (decodeAudio payload)
      else None
  | None => None
  end.

(** The audio chunks of a sequence of messages, in order. *)
Fixpoint audio_chunks (arrivals : list (Q * LiveServerMessage)) : list Chunk :=
  match arrivals with
  | [] => []
  | a :: rest =>
      match audio_chunk a with
      | Some c => c :: audio_chunks rest
      | None => audio_chunks rest
      end
  end.

(** A message with audio whose payload does not decode. *)
Definition undecodable (arrival : Q * LiveServerMessage) : Prop :=
  exists payload,
    base64Audio (snd arrival) = Some payload /\
    Js.truthy payload = true /\ decodeAudio payload = None.
End Inbound.

(** Two sources are the same when they play the same buffer, through the
    same node, from the same time. *)
Definition source_eq_dec (a b : AudioBufferSourceNode) : {a = b} + {a <> b}.
Proof.
  assert (Qdec : forall x y : Q, {x = y} + {x <> y})
    by (decide equality; first [apply Z.eq_dec | apply Pos.eq_dec]).
  decide equality.
  - decide equality. decide equality. apply Pos.eq_dec.
  - decide equality; first [apply Pos.eq_dec | apply list_eq_dec, Qdec].
Defined.

(** [set.delete(x)]: the first entry equal to [x] goes. *)
Fixpoint delete (x : AudioBufferSourceNode) (l : list AudioBufferSourceNode)
    : list AudioBufferSourceNode :=
  match l with
  | [] => []
  | y :: rest => if source_eq_dec x y then rest else y :: delete x rest
  end.

(** The listener that [playAudioResponse] installs on a source: when the
    source has ended it leaves the set. *)
Definition ended (source : AudioBufferSourceNode) (s : t) : t :=
  set_sources (delete source (sources s)) s.
End LiveCallbacks.

(* ===================================================================== *)
(** ** What a teardown that threw has done *)
(* ===================================================================== *)

Module Interrupted.
Import GeminiLiveService.

(** The teardown of [s] threw at the call [e], with the fields [s'] and
    the log [log]: [e] throws; the log holds the request to close the
    session and then the direct calls that come before [e] in program
    order, none of which throws; and the fields are those of [s], with at
    most the set of sources emptied. *)
Definition stopped_at (throws : Effect -> bool) (s s' : t) (log : list Effect)
    (e : Effect) : Prop :=
  throws e = true /\
  (exists done rest,
     log = map session_close (opt_list (sessionPromise s)) ++ done /\
     direct_calls s = done ++ e :: rest /\
     Forall (fun c => throws c = false) done) /\
  (s' = s \/ s' = set_sources [] s).
End Interrupted.

(* ===================================================================== *)
(** ** components/ChatInterface.tsx: initChat, with startChat *)
(* ===================================================================== *)

Module ChatStart.
Local Open Scope string_scope.
Import ChatInterface.

(** How far the start of a chat gets: the constructor of the service
    throws, or creating the chat throws, or the greeting is sent and the
    remote call settles. *)
Inductive Startup :=
| constructor_throws
| create_throws
| greeted (reply : Settled (option string)).

(** [new GeminiChatService()]: no chat yet. *)
Definition new_service : GeminiChatService.t := GeminiChatService.mk None.

(** [startChat(config)] on a service, once the constructor has returned.
    The chat is created with the system instruction of the configuration
    and the greeting is sent through it; the text of the greeting (it
    holds code units above 255) is not carried.  The result is the service,
    the instruction the chat was created with, if it was, and how the call
    settles. *)
Definition startChat (config : AppConfig) (created : bool)
    (reply : Settled (option string)) (svc : GeminiChatService.t)
    : GeminiChatService.t * option string * Settled (option string) :=
  if created
  then (GeminiChatService.mk (Some GeminiChatService.chat_handle),
        Some (Template.SYSTEM_INSTRUCTION_TEMPLATE config), reply)
  else (svc, None, Rejected).

Definition e_acute : string := String (ascii_of_nat 233) EmptyString.

(** The message shown when the chat cannot be started. *)
Definition apology : string :=
  "D" ++ e_acute ++ "sol" ++ e_acute
  ++ ", une erreur s'est produite. Veuillez r" ++ e_acute ++ "essayer.".

Definition setChatServiceRef (r : option GeminiChatService.t) (s : State) : State :=
  {| messages := messages s; inputValue := inputValue s;
     isLoading := isLoading s; chatServiceRef := r |}.

(** [initChat], run to its end.  [now] is the reading of [Date.now()]. *)
Definition initChat (now : Z) (config : AppConfig) (startup : Startup)
    (s : State) : State :=
  let s1 := setIsLoading true s in
  let failed (s' : State) :=
    setMessages (fun _ => [{| role := model; text := apology; timestamp := now |}]) s' in
  let s2 :=
    (* try / catch *)
    match startup with
    | constructor_throws => failed s1
    | create_throws =>
        let '(svc, _, _) := startChat config false Rejected new_service in
        failed (setChatServiceRef (Some svc) s1)
    | greeted reply =>
        let '(svc, _, result) := startChat config true reply new_service in
        let s' := setChatServiceRef (Some svc) s1 in
        match result with
        | Fulfilled initialResponse =>
            match truthy_text initialResponse with
            | Some t =>
                setMessages (fun _ => [{| role := model; text := t; timestamp := now |}]) s'
            | None => s'
            end
        | Rejected => failed s'
        end
    end in
  (* finally *)
  setIsLoading false s2.
End ChatStart.

(* ===================================================================== *)
(** ** components/LiveInterface: the pulse of drawVisualizer, endSession *)
(* ===================================================================== *)

Module Visualizer.
Local Open Scope Q_scope.

Section Pulse.
Context `{R : Rounding}.

(** [baseRadius = 60]. *)
Definition baseRadius : Q := round 60.

(** [baseRadius + (volume / 2)]. *)
Definition dynamicRadius (volume : Q) : Q :=
  round (baseRadius + round (volume / 2)).

(** [Math.min(0.8, volume / 100 + 0.2)], the opacity of the pulse. *)
Definition pulseAlpha (volume : Q) : Q :=
  Qmin (round (8 # 10)) (round (round (volume / 100) + round (2 # 10))).
End Pulse.
End Visualizer.

Module LiveSession.
Import LiveInterface.

(** [endSession]: the service of the ref, if there is one, is
    disconnected; then the interface goes inactive and the volume to zero.
    When [disconnect] throws, the two updates are not reached. *)
Definition endSession (throws : Effect -> bool) (u : State)
    : Outcome unit * State * list Effect :=
  match liveServiceRef u with
  | None => (Returns tt, setVolume 0%Q (setIsActive false u), [])
  | Some svc =>
      match GeminiLiveService.run_disconnect throws svc with
      | (Returns _, svc', log) =>
          (Returns tt, setVolume 0%Q (setIsActive false (setRef (Some svc') u)), log)
      | (Throws e, svc', log) => (Throws e, setRef (Some svc') u, log)
      end
  end.
End LiveSession.

(** A word as the setup form keeps it: not empty, trimmed, without a
    comma. *)
Definition clean_word (w : string) : Prop :=
  w <> EmptyString /\ Js.trim w = w /\ ~ In ","%char (list_ascii_of_string w).

(* ===================================================================== *)
(** ** App: which screen is shown *)
(* ===================================================================== *)

Module App.
Local Open Scope string_scope.

(** What the component renders. *)
Inductive Screen :=
| SetupFormScreen
| ChatInterfaceScreen (config : AppConfig)
| LiveInterfaceScreen (config : AppConfig)
| nothing.

(** [handleStart] and [handleBack] on the [config] cell. *)
Definition handleStart (newConfig : AppConfig) (_ : option AppConfig)
    : option AppConfig := Some newConfig.
Definition handleBack (_ : option AppConfig) : option AppConfig := None.

(** The body of the component: the setup form without a configuration,
    otherwise the screen of the mode, compared by its value. *)
Definition render (config : option AppConfig) : Screen :=
  match config with
  | None => SetupFormScreen
  | Some c =>
      if String.eqb (InteractionMode_value (mode c)) (InteractionMode_value TEXT)
      then ChatInterfaceScreen c
      else if String.eqb (InteractionMode_value (mode c)) (InteractionMode_value SPEECH)
      then LiveInterfaceScreen c
      else nothing
  end.

(** The form is submitted while the setup screen is shown: [onStart] is
    [handleStart]. *)
Definition submit (form : SetupForm.State) (config : option AppConfig)
    : SetupForm.State * option AppConfig :=
  match SetupForm.handleSubmit form with
  | (form', Some c) => (form', handleStart c config)
  | (form', None) => (form', config)
  end.
End App.

(* ===================================================================== *)
(** ** services/gemini.ts: the playback path against the clock *)
(* ===================================================================== *)

Module Timeline.
Import GeminiLiveService.
Local Open Scope Q_scope.

(** A step of the playback path of one service.  The calls of
    [playAudioResponse] are numbered in the order in which they begin,
    which is the order in which the chunks arrive.  Either a chunk is
    handed to a new call, which runs up to its [await]; or the decode
    awaited by the call number [call] gives [audioBuffer] and that call
    runs to its end.  [now] is [outputAudioContext.currentTime] when the
    step runs; the code reads it in the first kind of step only. *)
Inductive Step :=
| taken (now : Q)
| resumed (call : nat) (now : Q) (audioBuffer : AudioBuffer).

(** The step as the service sees it: neither the number of the call nor
    the clock of a resumption reaches the fields. *)
Definition event_of (e : Step) : PlaybackEvent :=
  match e with
  | taken now => message_taken now
  | resumed _ _ audioBuffer => decode_done audioBuffer
  end.

Definition clock_of (e : Step) : Q :=
  match e with
  | taken now => now
  | resumed _ now _ => now
  end.

(** The clock readings taken by the calls, in the order of the calls. *)
Fixpoint readings (steps : list Step) : list Q :=
  match steps with
  | [] => []
  | taken now :: rest => now :: readings rest
  | resumed _ _ _ :: rest => readings rest
  end.

(** A call resumes only after it has begun: with [begun] calls begun so
    far, every resumption in [steps] is that of a call begun before it. *)
Fixpoint causal (begun : nat) (steps : list Step) : bool :=
  match steps with
  | [] => true
  | taken _ :: rest => causal (S begun) rest
  | resumed call _ _ :: rest => (call <? begun)%nat && causal begun rest
  end.

(** What one step did to the timeline. *)
Record Moment := mkMoment {
  step : Step;
  cursor_found : Q;     (* [nextStartTime] when the step begins *)
  cursor_left : Q;      (* [nextStartTime] when the step ends *)
  source_started : option AudioBufferSourceNode
                        (* the source on which [start] was called *)
}.

Section History.
Context `{R : Rounding}.

(** One step on the service, with the source that it started, if any. *)
Definition run_step (e : Step) (s : t) : t * option AudioBufferSourceNode :=
  let '(s1, started) := run_events [event_of e] s in (s1, hd_error started).

(** The steps run in order, each on the service that the one before it
    left. *)
Fixpoint history (steps : list Step) (s : t) : list Moment :=
  match steps with
  | [] => []
  | e :: rest =>
      let '(s1, started) := run_step e s in
      {| step := e; cursor_found := nextStartTime s;
         cursor_left := nextStartTime s1; source_started := started |}
      :: history rest s1
  end.

(** The sources in the order in which [start] was called on them. *)
Definition sources_started (h : list Moment) : list AudioBufferSourceNode :=
  flat_map (fun m => opt_list (source_started m)) h.

(** The values of the cursor, from the one that the first step found. *)
Definition cursors (s : t) (h : list Moment) : list Q :=
  nextStartTime s :: map cursor_left h.

(** Where a source ends on the timeline, as the cursor has it. *)
Definition end_of (source : AudioBufferSourceNode) : Q :=
  round (startedAt source + duration (buffer source)).

(** [b] starts at or after the end of [a], hence at or after its start. *)
Definition follows (a b : AudioBufferSourceNode) : Prop :=
  end_of a <= startedAt b /\ startedAt a <= startedAt b.

(** What a step does while the output context is there: a call that
    begins moves the cursor up to the clock it reads and starts nothing;
    a call that resumes starts its buffer at the cursor it finds and moves
    the cursor to the end of that buffer. *)
Definition as_coded (m : Moment) : Prop :=
  match step m with
  | taken now =>
      source_started m = None /\
      cursor_left m = Qmax (cursor_found m) now /\
      now <= cursor_left m
  | resumed _ _ audioBuffer =>
      exists source,
        source_started m = Some source /\
        buffer source = audioBuffer /\
        startedAt source = cursor_found m /\
        cursor_left m = round (startedAt source + duration audioBuffer)
  end.

(** No source is given a start time that is already past when [start] is
    called on it. *)
Definition started_ahead (h : list Moment) : Prop :=
  Forall (fun m => forall source,
              source_started m = Some source ->
              clock_of (step m) <= startedAt source) h.
End History.

(** Three chunks of half a second.  The second arrives while the first is
    being decoded; the third arrives after the first two have ended. *)
Definition overlapping : list Step :=
  [taken 2; taken (21 # 10);
   resumed 0 (21 # 10) Scenario.half_second;
   resumed 1 (21 # 10) Scenario.half_second;
   taken 5; resumed 2 5 Scenario.half_second].

(** One chunk taken at clock 3 whose decode is done a tenth of a second
    later. *)
Definition late_decode : list Step :=
  [taken 3; resumed 0 (31 # 10) Scenario.half_second].
End Timeline.

(* ===================================================================== *)
(** * Properties *)
(* ===================================================================== *)

(** ** Strings *)

Section StringFacts.
Local Open Scope string_scope.
Import Js.

Lemma prefix_app (sub s : string) : String.prefix sub (sub ++ s) = true.
Proof.
  induction sub as [|c sub IH]; simpl.
  - destruct s; reflexivity.
  - destruct (ascii_dec c c) as [_|ne]; [exact IH | now elim ne].
Qed.

Lemma includes_prefix (sub s : string) :
  String.prefix sub s = true -> includes s sub = true.
Proof. destruct s; cbn [includes]; intros ->; reflexivity. Qed.

Lemma includes_here (sub s : string) : includes (sub ++ s) sub = true.
Proof. apply includes_prefix, prefix_app. Qed.

Lemma includes_self (s : string) : includes s s = true.
Proof.
  apply includes_prefix.
  induction s as [|c s IH]; simpl; [reflexivity|].
  destruct (ascii_dec c c) as [_|ne]; [exact IH | now elim ne].
Qed.

Lemma includes_app_r (s1 s2 sub : string) :
  includes s2 sub = true -> includes (s1 ++ s2) sub = true.
Proof.
  intros H. induction s1 as [|c s1 IH]; simpl; [exact H|].
  rewrite IH. apply orb_true_r.
Qed.

Lemma prefix_app_l (a b t : string) :
  String.prefix a b = true -> String.prefix a (b ++ t) = true.
Proof.
  revert b. induction a as [|x a IH]; intros b H;
    [destruct (b ++ t); reflexivity|].
  destruct b as [|y b]; [discriminate|]. cbn [append]. simpl in *.
  destruct (ascii_dec x y); [auto | discriminate].
Qed.

Lemma includes_app_l (s1 s2 sub : string) :
  includes s1 sub = true -> includes (s1 ++ s2) sub = true.
Proof.
  induction s1 as [|c s1 IH]; intros H.
  - apply includes_prefix, (prefix_app_l sub EmptyString s2).
    cbn [includes] in H. now rewrite orb_false_r in H.
  - cbn [append]. cbn [includes] in *.
    apply orb_true_iff in H. destruct H as [H|H].
    + apply (prefix_app_l _ _ s2) in H. cbn [append] in H. rewrite H. reflexivity.
    + rewrite (IH H). apply orb_true_r.
Qed.

(** A joined list contains each of its elements. *)
Lemma includes_join (sep w : string) (l : list string) :
  In w l -> includes (join sep l) w = true.
Proof.
  unfold join. induction l as [|x l IH]; [contradiction|].
  intros [->|Hin].
  - destruct l; simpl.
    + apply includes_self.
    + apply includes_here.
  - destruct l as [|y l]; [contradiction|].
    change (String.concat sep (x :: y :: l))
      with (x ++ sep ++ String.concat sep (y :: l)).
    apply includes_app_r, includes_app_r, IH, Hin.
Qed.

(** *** trim *)

Lemma whitespace_only_cons c s :
  whitespace_only (String c s) <-> is_whitespace c = true /\ whitespace_only s.
Proof.
  unfold whitespace_only. simpl. split.
  - intros H. inversion H; subst. split; assumption.
  - intros [H1 H2]. constructor; assumption.
Qed.

Lemma trimStart_empty s : trimStart s = EmptyString <-> whitespace_only s.
Proof.
  induction s as [|c s IH]; simpl.
  - split; [constructor | reflexivity].
  - rewrite whitespace_only_cons. destruct (is_whitespace c).
    + rewrite IH. tauto.
    + split; [discriminate | intros [H _]; discriminate].
Qed.

Lemma trimEnd_empty s : trimEnd s = EmptyString <-> whitespace_only s.
Proof.
  induction s as [|c s IH]; simpl.
  - split; [constructor | reflexivity].
  - rewrite whitespace_only_cons. destruct (trimEnd s) eqn:E.
    + destruct (is_whitespace c).
      * split; [intros _; split; [reflexivity | apply IH; reflexivity] | reflexivity].
      * split; [discriminate | intros [H _]; discriminate].
    + split; [discriminate|]. intros [_ H]. apply IH in H. discriminate.
Qed.

Lemma trimStart_whitespace_only s : whitespace_only (trimStart s) <-> whitespace_only s.
Proof.
  induction s as [|c s IH]; simpl; [tauto|].
  destruct (is_whitespace c) eqn:E.
  - rewrite whitespace_only_cons, IH, E. tauto.
  - tauto.
Qed.

(** [trim] leaves nothing exactly of the whitespace-only strings. *)
Lemma trim_empty s : trim s = EmptyString <-> whitespace_only s.
Proof.
  unfold trim. rewrite trimEnd_empty. apply trimStart_whitespace_only.
Qed.


Lemma trimEnd_cons c s :
  trimEnd (String c s) =
  match trimEnd s with
  | EmptyString => if is_whitespace c then EmptyString else String c EmptyString
  | r => String c r
  end.
Proof. reflexivity. Qed.




Lemma truthy_false_iff s : truthy s = false <-> s = EmptyString.
Proof.
  unfold truthy. destruct (String.eqb_spec s EmptyString); simpl; split;
    congruence.
Qed.

Lemma or_else_nonempty a b : b <> EmptyString -> or_else a b <> EmptyString.
Proof.
  intros Hb. unfold or_else. destruct (truthy a) eqn:E; [|exact Hb].
  intros ->. discriminate.
Qed.
End StringFacts.

(** ** The system instruction *)

Section SystemInstruction.
Local Open Scope string_scope.
Import Js Template.

(** X4.  The template interpolates the level, the topic or its fallback, and
    every word of the list. *)
Lemma template_interpolates (c : AppConfig) :
  includes (SYSTEM_INSTRUCTION_TEMPLATE c) (ProficiencyLevel_value (level c)) = true /\
  includes (SYSTEM_INSTRUCTION_TEMPLATE c)
           (or_else (topic c) "General Conversation") = true /\
  (forall w, In w (words c) -> includes (SYSTEM_INSTRUCTION_TEMPLATE c) w = true).
Proof.
  unfold SYSTEM_INSTRUCTION_TEMPLATE. repeat split.
  - apply includes_app_r, includes_here.
  - do 3 apply includes_app_r. apply includes_here.
  - intros w Hw. do 5 apply includes_app_r.
    apply includes_app_l, includes_join, Hw.
Qed.

(** C1, as the code has it.  For the configuration with level A1, the
    words maison and chat and an empty topic, the system instruction
    contains A1, maison, chat and the template's own fallback topic
    General Conversation, and it does not contain Daily Life.  Daily Life
    is the fallback of the setup form: the configuration that
    [handleSubmit] builds from the same entries with a blank topic carries
    the topic Daily Life, and its instruction contains it. *)
Theorem system_instruction_scenario :
  let instruction := SYSTEM_INSTRUCTION_TEMPLATE Scenario.config in
  includes instruction "A1" = true /\
  includes instruction "maison" = true /\
  includes instruction "chat" = true /\
  includes instruction "General Conversation" = true /\
  includes instruction "Daily Life" = false /\
  exists c,
    SetupForm.handleSubmit Scenario.form = (Scenario.form, Some c) /\
    topic c = "Daily Life" /\
    includes (SYSTEM_INSTRUCTION_TEMPLATE c) "A1" = true /\
    includes (SYSTEM_INSTRUCTION_TEMPLATE c) "maison" = true /\
    includes (SYSTEM_INSTRUCTION_TEMPLATE c) "chat" = true /\
    includes (SYSTEM_INSTRUCTION_TEMPLATE c) "Daily Life" = true.
Proof.
  cbv zeta. repeat split; try (vm_compute; reflexivity).
  exists {| level := A1; words := ["maison"; "chat"]; topic := "Daily Life";
            mode := SPEECH |}.
  repeat split; vm_compute; reflexivity.
Qed.

(** C1 as stated fails: with the empty topic passed to the template, the
    instruction does not contain Daily Life. *)
Lemma system_instruction_no_daily_life :
  ~ (let instruction := SYSTEM_INSTRUCTION_TEMPLATE Scenario.config in
     includes instruction "A1" = true /\
     includes instruction "maison" = true /\
     includes instruction "chat" = true /\
     includes instruction "Daily Life" = true).
Proof.
  cbv zeta. intros (_ & _ & _ & H). vm_compute in H. discriminate H.
Qed.
End SystemInstruction.

(** ** The setup form *)

Section SetupFormFacts.
Local Open Scope string_scope.
Import Js SetupForm.



End SetupFormFacts.

(** ** The text chat *)

Section ChatFacts.
Local Open Scope string_scope.
Local Open Scope list_scope.
Import Js ChatInterface.

(** C9.  A draft that is empty or made of whitespace only is not sent:
    the state is unchanged and the service is not called.  When the draft
    is sent and [sendMessage] throws, the user's message stays at the end
    of the list, nothing follows it, and [isLoading] is false again. *)
Theorem handleSend_blank_and_failure (now1 now2 : Z)
    (remote : Settled (option string)) (s : State) :
  (whitespace_only (inputValue s) -> handleSend now1 now2 remote s = (s, [])) /\
  (forall svc,
      chatServiceRef s = Some svc ->
      isLoading s = false ->
      ~ whitespace_only (inputValue s) ->
      fst (GeminiChatService.sendMessage svc (inputValue s) remote) = Rejected ->
      let s' := fst (handleSend now1 now2 remote s) in
      messages s' =
        messages s ++ [{| role := user; text := inputValue s; timestamp := now1 |}] /\
      isLoading s' = false /\
      snd (handleSend now1 now2 remote s) = [sendMessage (inputValue s)]).
Proof.
  split.
  - intros W. apply trim_empty in W. unfold handleSend. rewrite W. reflexivity.
  - intros svc Hsvc Hload Hnw Hrej. unfold handleSend.
    rewrite Hsvc, Hload.
    destruct (truthy (trim (inputValue s))) eqn:T.
    + cbn [negb text]. rewrite Hrej. cbn. repeat split.
    + apply truthy_false_iff, trim_empty in T. contradiction.
Qed.

Lemma handleSend_blank_and_failure_witness :
  handleSend 10 20 Rejected (Scenario.chat_ready "  ") = (Scenario.chat_ready "  ", []) /\
  (let s' := fst (handleSend 10 20 Rejected (Scenario.chat_ready "Salut")) in
   messages s' =
     messages (Scenario.chat_ready "Salut")
       ++ [{| role := user; text := "Salut"; timestamp := 10 |}] /\
   isLoading s' = false /\
   snd (handleSend 10 20 Rejected (Scenario.chat_ready "Salut")) = [sendMessage "Salut"]).
Proof.
  split.
  - apply (proj1 (handleSend_blank_and_failure 10 20 Rejected (Scenario.chat_ready "  "))).
    repeat constructor.
  - apply (proj2 (handleSend_blank_and_failure 10 20 Rejected (Scenario.chat_ready "Salut"))
             (GeminiChatService.mk (Some GeminiChatService.chat_handle))).
    + reflexivity.
    + reflexivity.
    + intros W. inversion W as [|? ? H _]. discriminate H.
    + reflexivity.
Defined.
End ChatFacts.

(** ** The volume report *)

Section VolumeFacts.
Local Open Scope Q_scope.
Import GeminiLiveService.

Lemma byte_value_range (b : Byte.byte) : (0 <= byte_value b <= 255)%Z.
Proof.
  unfold byte_value. pose proof (Byte.to_N_bounded b). lia.
Qed.

Lemma fold_left_add (l : list Byte.byte) (a : Z) :
  fold_left (fun a b => (a + byte_value b)%Z) l a
  = (a + fold_right Z.add 0%Z (map byte_value l))%Z.
Proof.
  revert a. induction l as [|b l IH]; intros a; simpl; [lia|].
  rewrite IH. lia.
Qed.

(** The sum without an initial value is the sum of the byte values. *)
Lemma reduce_add_sum (l : list Byte.byte) :
  l <> [] -> reduce_add l = Some (fold_right Z.add 0%Z (map byte_value l)).
Proof.
  destruct l as [|b l]; [congruence|]. intros _. simpl.
  rewrite fold_left_add. reflexivity.
Qed.

Lemma sum_range (l : list Byte.byte) :
  (0 <= fold_right Z.add 0%Z (map byte_value l)
     <= 255 * Z.of_nat (List.length l))%Z.
Proof.
  induction l as [|b l IH]; [simpl; lia|].
  cbn [map fold_right List.length]. pose proof (byte_value_range b). lia.
Qed.

Lemma mean_range (l : list Byte.byte) : l <> [] -> 0 <= mean l <= 255.
Proof.
  intros Hne. unfold mean.
  assert (Hlen : (0 < Z.of_nat (List.length l))%Z)
    by (destruct l; [congruence | simpl; lia]).
  pose proof (sum_range l) as [Hlo Hhi].
  assert (Hpos : 0 < inject_Z (Z.of_nat (List.length l)))
    by (rewrite <- (Zlt_Qlt 0); exact Hlen).
  split.
  - apply Qle_shift_div_l; [exact Hpos|].
    rewrite Qmult_0_l, <- (Zle_Qle 0). exact Hlo.
  - apply Qle_shift_div_r; [exact Hpos|].
    change 255 with (inject_Z 255). rewrite <- inject_Z_mult, <- Zle_Qle.
    exact Hhi.
Qed.

(** C6.  With the array that the analyser fills, of [frequencyBinCount]
    bytes, the capture callback passes to [onVolumeChange] the arithmetic
    mean of the byte values, and that value lies between 0 and 255. *)
Theorem volume_is_bounded_mean (s : t) (dataArray : list Byte.byte) :
  List.length dataArray = frequencyBinCount ->
  onVolumeChange s = Some call_setVolume ->
  exists v,
    onaudioprocess_volume s dataArray = Some (Some v) /\
    v = mean dataArray /\
    0 <= v <= 255.
Proof.
  intros Hlen Hcb.
  assert (Hne : dataArray <> []) by (intros ->; discriminate Hlen).
  exists (mean dataArray). split; [|split; [reflexivity | apply mean_range, Hne]].
  unfold onaudioprocess_volume. rewrite (reduce_add_sum _ Hne), Hcb.
  reflexivity.
Qed.

Lemma volume_is_bounded_mean_witness :
  exists v,
    onaudioprocess_volume Scenario.connected
      (repeat Byte.xff frequencyBinCount) = Some (Some v) /\
    v = mean (repeat Byte.xff frequencyBinCount) /\
    0 <= v <= 255.
Proof.
  apply (volume_is_bounded_mean Scenario.connected
           (repeat Byte.xff frequencyBinCount)).
  - vm_compute. reflexivity.
  - reflexivity.
Defined.
End VolumeFacts.

(** ** The playback timeline *)

Section PlaybackFacts.
Local Open Scope Q_scope.
Import GeminiLiveService.

Context `{R : Rounding}.

Lemma round_compat (x y : Q) : x == y -> round x == round y.
Proof.
  intros E. apply Qle_antisym; apply round_monotone; rewrite E; apply Qle_refl.
Qed.

Lemma representable_round (x : Q) : representable (round x).
Proof. apply round_idempotent. Qed.

Lemma representable_max (x y : Q) :
  representable x -> representable y -> representable (Qmax x y).
Proof.
  unfold representable. intros Hx Hy.
  destruct (Q.max_spec x y) as [[_ E] | [_ E]];
    rewrite (round_compat _ _ E), E; assumption.
Qed.

(** Adding what is not negative to a double does not give less. *)
Lemma round_add_nonneg (x d : Q) :
  representable x -> 0 <= d -> x <= round (x + d).
Proof.
  intros Hx Hd. unfold representable in Hx. rewrite <- Hx at 1.
  apply round_monotone. lra.
Qed.

Lemma duration_nonneg (b : AudioBuffer) : 0 <= duration b.
Proof.
  unfold duration. rewrite <- round_zero. apply round_monotone.
  unfold Qle. simpl. lia.
Qed.

(** One call, with an output context and a decoded buffer. *)
Lemma playAudioResponse_scheduled (now : Q) (b : AudioBuffer) (node : GainNode)
    (s : t) (ctx : AudioContext) :
  outputAudioContext s = Some ctx ->
  exists s' source,
    playAudioResponse now (Some b) node s = (s', Some source) /\
    startedAt source = Qmax (nextStartTime s) now /\
    buffer source = b /\
    nextStartTime s' = round (Qmax (nextStartTime s) now + duration b) /\
    outputAudioContext s' = Some ctx /\
    sources s' = (sources s ++ [source])%list.
Proof.
  intros Hctx. unfold playAudioResponse, playAudioResponse_begin.
  rewrite Hctx. unfold playAudioResponse_resume. cbn.
  rewrite Hctx. eexists _, _. repeat split. exact Hctx.
Qed.

(** The schedule of a run is a chain from the cursor the run found, it has
    one entry per chunk, and the cursor ends where the chain ends. *)
Lemma play_all_chained (chunks : list Chunk) :
  forall (s : t) (ctx : AudioContext),
    outputAudioContext s = Some ctx ->
    representable (nextStartTime s) ->
    Forall (fun c => representable (arrival c)) chunks ->
    let '(s', sched) := play_all chunks s in
    chained (nextStartTime s) sched /\
    map clock sched = map arrival chunks /\
    map length sched = map (fun c => duration (decodedBuffer c)) chunks /\
    nextStartTime s <= nextStartTime s' /\
    outputAudioContext s' = Some ctx.
Proof.
  induction chunks as [|c rest IH]; intros s ctx Hctx Hrep Hclocks.
  - simpl. repeat split; auto. apply Qle_refl.
  - cbn [play_all]. inversion Hclocks as [|? ? Hc Hrest]; subst.
    destruct (playAudioResponse_scheduled (arrival c) (decodedBuffer c)
                outputNode s ctx Hctx)
      as (s1 & source & -> & Hstart & Hbuf & Hnext & Hctx1 & _).
    assert (Hrep1 : representable (nextStartTime s1))
      by (rewrite Hnext; apply representable_round).
    specialize (IH s1 ctx Hctx1 Hrep1 Hrest).
    destruct (play_all rest s1) as [s2 later].
    destruct IH as (Hch & Hclk & Hlen & Hmono & Hctx2).
    assert (Hup : Qmax (nextStartTime s) (arrival c) <= nextStartTime s1).
    { rewrite Hnext. apply round_add_nonneg.
      - apply representable_max; assumption.
      - apply duration_nonneg. }
    cbn [chained map clock cursor_before start length cursor_after].
    rewrite Hstart, Hbuf, Hclk, Hlen. repeat split; auto.
    apply Qle_trans with (nextStartTime s1); [|exact Hmono].
    pose proof (Q.le_max_l (nextStartTime s) (arrival c)). lra.
Qed.

(** In a chain every buffer starts at or after the cursor it found and the
    clock, and the cursor only moves forward. *)
Lemma chained_each (sched : list Scheduled) :
  forall cursor, chained cursor sched ->
    Forall (fun r =>
              cursor <= cursor_before r /\
              cursor_before r <= start r /\
              clock r <= start r /\
              start r <= cursor_after r /\
              clock r <= cursor_after r) sched.
Proof.
  induction sched as [|r rest IH]; intros cursor H; [constructor|].
  destruct H as (Hb & Hs & Ha & Hsa & Hrest).
  pose proof (Q.le_max_l cursor (clock r)) as M1.
  pose proof (Q.le_max_r cursor (clock r)) as M2.
  rewrite <- Hs in M1, M2.
  constructor.
  - rewrite Hb. repeat split; lra.
  - apply IH in Hrest. eapply Forall_impl; [|exact Hrest].
    cbv beta. intros r' (H1 & H2). split; [lra | exact H2].
Qed.

(** In a chain a buffer starts no earlier than the end of the one before. *)
Lemma chained_consecutive (sched : list Scheduled) :
  forall cursor i r1 r2, chained cursor sched ->
    nth_error sched i = Some r1 ->
    nth_error sched (S i) = Some r2 ->
    cursor_before r2 = cursor_after r1 /\
    round (start r1 + length r1) <= start r2 /\
    start r1 <= start r2 /\
    cursor_after r1 <= cursor_after r2.
Proof.
  induction sched as [|r rest IH]; intros cursor i r1 r2 H H1 H2;
    [destruct i; discriminate|].
  destruct H as (Hb & Hs & Ha & Hsa & Hrest).
  destruct i as [|i].
  - injection H1 as <-. destruct rest as [|r' rest']; [discriminate|].
    injection H2 as <-.
    destruct Hrest as (Hb' & Hs' & Ha' & Hsa' & _).
    pose proof (Q.le_max_l (cursor_after r) (clock r')) as M.
    rewrite <- Hs' in M.
    repeat split; try lra; [exact Hb' | rewrite <- Ha; exact M].
  - exact (IH _ i r1 r2 Hrest H1 H2).
Qed.

(** X13.  However the calls overlap at their [await], each source starts at or
    after the end of the one started before it. *)
Lemma overlapping_calls_gapless (events : list PlaybackEvent) :
  forall (s : t) (bound : Q),
    bound <= nextStartTime s ->
    gapless bound (snd (run_events events s)).
Proof.
  induction events as [|[now|b] rest IH]; intros s bound Hb.
  - exact I.
  - cbn [run_events]. unfold playAudioResponse_begin.
    destruct (outputAudioContext s); [|apply IH, Hb].
    apply IH. cbn.
    pose proof (Q.le_max_l (nextStartTime s) now). lra.
  - cbn [run_events]. unfold playAudioResponse_resume.
    destruct (outputAudioContext s); [|apply IH, Hb].
    set (s1 := set_sources _ _).
    assert (H1 : round (nextStartTime s + duration b) <= nextStartTime s1)
      by apply Qle_refl.
    pose proof (IH s1 _ H1) as G.
    destruct (run_events rest s1) as [s2 started]. cbn [fst snd] in *.
    cbn [gapless startedAt buffer]. split; [exact Hb | exact G].
Qed.

(** Once the output context is cleared nothing more is started: a decode
    that completes after a teardown adds no source. *)
Lemma no_playback_without_context (events : list PlaybackEvent) (s : t) :
  outputAudioContext s = None -> run_events events s = (s, []).
Proof.
  intros H. induction events as [|[now|b] rest IH]; [reflexivity| |];
    cbn [run_events]; unfold playAudioResponse_begin, playAudioResponse_resume;
    rewrite H; exact IH.
Qed.
End PlaybackFacts.

Section PlaybackExamples.
Local Open Scope Q_scope.
Import GeminiLiveService.

(** Three chunks of half a second handled back to back at clock 2 start
    at 2, 2.5 and 3 seconds. *)
Example three_chunks_back_to_back :
  map (fun r => Qred (start r))
      (snd (play_all Scenario.three_chunks Scenario.connected))
  = [2; 5 # 2; 3].
Proof. vm_compute. reflexivity. Qed.
End PlaybackExamples.

(** ** The timeline against the clock *)

Section ClockFacts.
Local Open Scope Q_scope.
Import GeminiLiveService Timeline.

Context `{R : Rounding}.

Lemma StronglySorted_nth {A} (rel : A -> A -> Prop) (l : list A) :
  StronglySorted rel l ->
  forall i j a b, (i < j)%nat ->
    nth_error l i = Some a -> nth_error l j = Some b -> rel a b.
Proof.
  induction 1 as [|x l Hs IH Hf]; intros i j a b Hij Ha Hb.
  - destruct i; discriminate.
  - destruct j as [|j]; [lia|]. destruct i as [|i].
    + injection Ha as <-. cbn in Hb. rewrite Forall_forall in Hf.
      apply Hf. eapply nth_error_In, Hb.
    + cbn in Ha, Hb. apply (IH i j); auto. lia.
Qed.

(** The two kinds of step on a service that has its output context. *)
Lemma run_step_taken (now : Q) (s : t) (ctx : AudioContext) :
  outputAudioContext s = Some ctx ->
  run_step (taken now) s
  = (set_nextStartTime (Qmax (nextStartTime s) now) s, None).
Proof.
  intros Hctx. unfold run_step. cbn [event_of run_events].
  unfold playAudioResponse_begin. rewrite Hctx. reflexivity.
Qed.

Lemma run_step_resumed (call : nat) (now : Q) (b : AudioBuffer) (s : t)
    (ctx : AudioContext) :
  outputAudioContext s = Some ctx ->
  run_step (resumed call now b) s
  = (set_sources (sources s ++ [mkSource b outputNode (nextStartTime s)])
       (set_nextStartTime (round (nextStartTime s + duration b)) s),
     Some (mkSource b outputNode (nextStartTime s))).
Proof.
  intros Hctx. unfold run_step. cbn [event_of run_events].
  unfold playAudioResponse_resume. rewrite Hctx. reflexivity.
Qed.

(** The history records the steps it was given, and the sources it lists
    are those of the run of the service. *)
Lemma history_steps (steps : list Step) :
  forall s, map step (history steps s) = steps.
Proof.
  induction steps as [|e rest IH]; intros s; [reflexivity|].
  cbn [history]. destruct (run_step e s) as [s1 started].
  cbn [map step]. rewrite IH. reflexivity.
Qed.

Lemma history_sources (steps : list Step) :
  forall s,
    sources_started (history steps s) = snd (run_events (map event_of steps) s).
Proof.
  induction steps as [|e rest IH]; intros s; [reflexivity|].
  cbn [history map]. unfold run_step.
  destruct e as [now | call now b]; cbn [event_of run_events].
  - destruct (playAudioResponse_begin now s) as [s1|];
      cbn [hd_error]; unfold sources_started; cbn [flat_map source_started opt_list app];
      apply IH.
  - destruct (playAudioResponse_resume b outputNode s) as [[s1 source]|];
      cbn [hd_error]; unfold sources_started;
      cbn [flat_map source_started opt_list app].
    + specialize (IH s1). unfold sources_started in IH. rewrite IH.
      destruct (run_events (map event_of rest) s1) as [s2 started].
      reflexivity.
    + apply IH.
Qed.

(** The facts that every step keeps.  [pre] holds the clock readings of
    the calls that began before [steps]. *)
Lemma history_facts (ctx : AudioContext) (steps : list Step) :
  forall (s : t) (pre : list Q),
    outputAudioContext s = Some ctx ->
    representable (nextStartTime s) ->
    Forall representable (readings steps) ->
    Forall (fun reading => reading <= nextStartTime s) pre ->
    causal (List.length pre) steps = true ->
    Forall as_coded (history steps s) /\
    Forall (Qle (nextStartTime s)) (map cursor_left (history steps s)) /\
    StronglySorted Qle (map cursor_left (history steps s)) /\
    Forall (fun a => nextStartTime s <= startedAt a)
           (sources_started (history steps s)) /\
    StronglySorted follows (sources_started (history steps s)) /\
    StronglySorted (fun m1 m2 =>
                      forall a b,
                        source_started m1 = Some a ->
                        source_started m2 = Some b -> follows a b)
                   (history steps s) /\
    Forall (fun m =>
              forall call now b source,
                step m = resumed call now b ->
                source_started m = Some source ->
                exists reading,
                  nth_error (pre ++ readings steps) call = Some reading /\
                  reading <= startedAt source)
           (history steps s).
Proof.
  induction steps as [|e rest IH]; intros s pre Hctx Hrep Hread Hpre Hcausal.
  - cbn. repeat split; constructor.
  - destruct e as [now | call now b].
    + cbn [history]. rewrite (run_step_taken now s ctx Hctx).
      cbn [readings] in Hread. inversion Hread as [|? ? Hnow Hrest]; subst.
      cbn [causal] in Hcausal.
      set (s1 := set_nextStartTime (Qmax (nextStartTime s) now) s) in *.
      assert (Hc1 : nextStartTime s <= nextStartTime s1) by apply Q.le_max_l.
      assert (Hn1 : now <= nextStartTime s1) by apply Q.le_max_r.
      destruct (IH s1 (pre ++ [now])%list) as (A & B & C & D & E & G & F).
      * exact Hctx.
      * apply representable_max; assumption.
      * exact Hrest.
      * apply Forall_app. split.
        -- eapply Forall_impl; [|exact Hpre]. cbv beta. intros t Ht.
           apply Qle_trans with (nextStartTime s); assumption.
        -- constructor; [exact Hn1 | constructor].
      * rewrite length_app. cbn [List.length]. rewrite Nat.add_1_r. exact Hcausal.
      * assert (B' : Forall (Qle (nextStartTime s))
                       (map cursor_left (history rest s1))).
        { eapply Forall_impl; [|exact B]. cbv beta. intros c Hc.
          apply Qle_trans with (nextStartTime s1); assumption. }
        unfold sources_started in *.
        cbn [map flat_map cursor_left source_started opt_list app].
        split; [|split; [|split; [|split; [|split; [|split]]]]].
        -- constructor; [|exact A].
           unfold as_coded. cbn. repeat split. exact Hn1.
        -- constructor; assumption.
        -- constructor; assumption.
        -- eapply Forall_impl; [|exact D]. cbv beta. intros a Ha.
           apply Qle_trans with (nextStartTime s1); assumption.
        -- exact E.
        -- constructor; [exact G|].
           apply Forall_forall. cbn. intros ? ? ? ? Hnone. discriminate Hnone.
        -- constructor.
           ++ cbn. intros ? ? ? ? Hs. discriminate Hs.
           ++ cbn [readings]. rewrite <- app_assoc in F. exact F.
    + cbn [history]. rewrite (run_step_resumed call now b s ctx Hctx).
      cbn [readings] in Hread. cbn [causal] in Hcausal.
      apply andb_prop in Hcausal. destruct Hcausal as [Hcall Hcausal].
      apply Nat.ltb_lt in Hcall.
      set (source := mkSource b outputNode (nextStartTime s)) in *.
      set (s1 := set_sources _ _) in *.
      assert (Hc1 : nextStartTime s <= nextStartTime s1).
      { apply round_add_nonneg; [exact Hrep | apply duration_nonneg]. }
      destruct (IH s1 pre) as (A & B & C & D & E & G & F).
      * exact Hctx.
      * apply representable_round.
      * exact Hread.
      * eapply Forall_impl; [|exact Hpre]. cbv beta. intros t Ht.
        apply Qle_trans with (nextStartTime s); assumption.
      * exact Hcausal.
      * assert (B' : Forall (Qle (nextStartTime s))
                       (map cursor_left (history rest s1))).
        { eapply Forall_impl; [|exact B]. cbv beta. intros c Hc.
          apply Qle_trans with (nextStartTime s1); assumption. }
        unfold sources_started in *.
        cbn [map flat_map cursor_left source_started opt_list app].
        assert (Hlater : Forall (follows source)
                           (flat_map (fun m => opt_list (source_started m))
                                     (history rest s1))).
        { eapply Forall_impl; [|exact D]. cbv beta. intros a Ha.
          unfold follows, end_of. cbn [source startedAt buffer]. split.
          - exact Ha.
          - apply Qle_trans with (nextStartTime s1); assumption. }
        split; [|split; [|split; [|split; [|split; [|split]]]]].
        -- constructor; [|exact A].
           unfold as_coded. cbn. exists source. repeat split.
        -- constructor; assumption.
        -- constructor; assumption.
        -- constructor; [apply Qle_refl|].
           eapply Forall_impl; [|exact D]. cbv beta. intros a Ha.
           apply Qle_trans with (nextStartTime s1); assumption.
        -- constructor; [exact E | exact Hlater].
        -- constructor; [exact G|].
           apply Forall_forall. cbn [source_started].
           intros m2 Hm2 a1 a2 Ha1 Ha2. injection Ha1 as <-.
           rewrite Forall_forall in Hlater. apply Hlater.
           apply in_flat_map. exists m2. split; [exact Hm2|].
           rewrite Ha2. left. reflexivity.
        -- constructor; [|exact F].
           cbn [step source_started]. intros call' now' b' source' Hs Hsrc.
           injection Hs as <- _ _. injection Hsrc as <-.
           destruct (nth_error pre call) as [reading|] eqn:Hnth.
           ++ exists reading. split.
              ** rewrite nth_error_app1 by exact Hcall. exact Hnth.
              ** rewrite Forall_forall in Hpre. apply Hpre.
                 eapply nth_error_In, Hnth.
           ++ apply nth_error_None in Hnth. lia.
Qed.

(** C2, as the code has it.  Chunks arrive at arbitrary clock readings
    and their calls of [playAudioResponse] overlap at the [await] in any
    way, each call resuming after it has begun.  Every decode that
    completes starts a source, at the cursor it finds.  The cursor never
    moves back.  Taken in the order in which [start] is called, which is
    the order in which the decodes complete, each source starts at or
    after the start of every earlier one plus its duration (the sum as the
    code computes it), hence at or after its start; this is said of the
    list of sources and of the steps, which name their calls.  When a
    call has read the clock the cursor is at or after that reading, and
    so is the start time that the call gives later.  The clock is not
    read again after the [await]: the start time is at or after the clock
    when [start] is called provided the clock has not moved since the
    call read it. *)
Theorem playback_schedule_monotone (steps : list Step) (s : t)
    (ctx : AudioContext) :
  outputAudioContext s = Some ctx ->
  representable (nextStartTime s) ->
  Forall representable (readings steps) ->
  causal 0 steps = true ->
  let h := history steps s in
  let started := sources_started h in
  started = snd (run_events (map event_of steps) s) /\
  Forall (fun m =>
            match step m with
            | taken now =>
                source_started m = None /\
                cursor_left m = Qmax (cursor_found m) now /\
                now <= cursor_left m
            | resumed _ _ audioBuffer =>
                exists source,
                  source_started m = Some source /\
                  buffer source = audioBuffer /\
                  startedAt source = cursor_found m /\
                  cursor_left m = round (startedAt source + duration audioBuffer)
            end) h /\
  (forall i j c1 c2, (i < j)%nat ->
      nth_error (cursors s h) i = Some c1 ->
      nth_error (cursors s h) j = Some c2 ->
      c1 <= c2) /\
  (forall i j a b, (i < j)%nat ->
      nth_error started i = Some a ->
      nth_error started j = Some b ->
      round (startedAt a + duration (buffer a)) <= startedAt b /\
      startedAt a <= startedAt b) /\
  (forall i j m1 m2 a b, (i < j)%nat ->
      nth_error h i = Some m1 -> nth_error h j = Some m2 ->
      source_started m1 = Some a -> source_started m2 = Some b ->
      round (startedAt a + duration (buffer a)) <= startedAt b /\
      startedAt a <= startedAt b) /\
  Forall (fun m =>
            forall call now audioBuffer source,
              step m = resumed call now audioBuffer ->
              source_started m = Some source ->
              exists reading,
                nth_error (readings steps) call = Some reading /\
                reading <= startedAt source) h /\
  (Forall (fun e =>
             match e with
             | taken _ => True
             | resumed call now _ =>
                 exists reading,
                   nth_error (readings steps) call = Some reading /\
                   now <= reading
             end) steps ->
   started_ahead h).
Proof.
  intros Hctx Hrep Hread Hcausal h started.
  destruct (history_facts ctx steps s [] Hctx Hrep Hread (Forall_nil _) Hcausal)
    as (A & B & C & D & E & G & F).
  fold h in A, B, C, D, E, G, F. fold started in D, E. cbn [app] in F.
  split; [apply history_sources|].
  split; [exact A|].
  split; [|split; [|split; [|split]]].
  - intros i j c1 c2 Hij H1 H2.
    apply (StronglySorted_nth Qle (cursors s h)) with (i := i) (j := j); auto.
    unfold cursors. constructor; assumption.
  - intros i j a b Hij H1 H2.
    exact (StronglySorted_nth follows started E i j a b Hij H1 H2).
  - intros i j m1 m2 a b Hij H1 H2 Ha Hb.
    exact (StronglySorted_nth _ h G i j m1 m2 Hij H1 H2 a b Ha Hb).
  - exact F.
  - intros Hsame. unfold started_ahead.
    rewrite Forall_forall in F |- *. intros m Hm source Hsrc.
    pose proof (in_map step _ _ Hm) as Hstep.
    unfold h in Hstep. rewrite history_steps in Hstep.
    rewrite Forall_forall in Hsame. specialize (Hsame _ Hstep).
    rewrite Forall_forall in A. specialize (A m Hm). unfold as_coded in A.
    destruct (step m) as [now | call now b] eqn:Hs.
    + destruct A as (Hnone & _). rewrite Hnone in Hsrc. discriminate Hsrc.
    + destruct Hsame as (reading & Hr & Hle).
      destruct (F m Hm call now b source Hs Hsrc) as (reading' & Hr' & Hle').
      rewrite Hr in Hr'. injection Hr' as <-. cbn [clock_of].
      apply Qle_trans with reading; assumption.
Qed.
End ClockFacts.

Section ClockExamples.
Local Open Scope Q_scope.
Import GeminiLiveService Timeline.

Lemma playback_schedule_monotone_witness :
  let h := history overlapping Scenario.connected in
  let started := sources_started h in
  started = snd (run_events (map event_of overlapping) Scenario.connected) /\
  Forall (fun m =>
            match step m with
            | taken now =>
                source_started m = None /\
                cursor_left m = Qmax (cursor_found m) now /\
                now <= cursor_left m
            | resumed _ _ audioBuffer =>
                exists source,
                  source_started m = Some source /\
                  buffer source = audioBuffer /\
                  startedAt source = cursor_found m /\
                  cursor_left m = startedAt source + duration audioBuffer
            end) h /\
  (forall i j c1 c2, (i < j)%nat ->
      nth_error (cursors Scenario.connected h) i = Some c1 ->
      nth_error (cursors Scenario.connected h) j = Some c2 ->
      c1 <= c2) /\
  (forall i j a b, (i < j)%nat ->
      nth_error started i = Some a ->
      nth_error started j = Some b ->
      startedAt a + duration (buffer a) <= startedAt b /\
      startedAt a <= startedAt b) /\
  (forall i j m1 m2 a b, (i < j)%nat ->
      nth_error h i = Some m1 -> nth_error h j = Some m2 ->
      source_started m1 = Some a -> source_started m2 = Some b ->
      startedAt a + duration (buffer a) <= startedAt b /\
      startedAt a <= startedAt b) /\
  Forall (fun m =>
            forall call now audioBuffer source,
              step m = resumed call now audioBuffer ->
              source_started m = Some source ->
              exists reading,
                nth_error (readings overlapping) call = Some reading /\
                reading <= startedAt source) h /\
  (Forall (fun e =>
             match e with
             | taken _ => True
             | resumed call now _ =>
                 exists reading,
                   nth_error (readings overlapping) call = Some reading /\
                   now <= reading
             end) overlapping ->
   started_ahead h).
Proof.
  apply (@playback_schedule_monotone exact_arithmetic overlapping
           Scenario.connected outputContext).
  - vm_compute. reflexivity.
  - reflexivity.
  - repeat constructor.
  - reflexivity.
Defined.

(** The three chunks of the overlapping run start at 2.1, 2.6 and 5
    seconds: the first two back to back, the third at the clock. *)
Example overlapping_starts :
  map (fun source => Qred (startedAt source))
      (sources_started (history overlapping Scenario.connected))
  = [21 # 10; 13 # 5; 5].
Proof. vm_compute. reflexivity. Qed.

(** C2 as stated fails at the call of [start]: a chunk taken at clock 3
    whose decode is done at clock 3.1 is started at 3, the clock that its
    call read before the [await], which is past by then. *)
Lemma playback_start_in_the_past :
  causal 0 late_decode = true /\
  map clock_of late_decode = [3; 31 # 10] /\
  map (fun m => option_map startedAt (source_started m))
      (history late_decode Scenario.connected)
  = [None; Some 3] /\
  ~ started_ahead (history late_decode Scenario.connected).
Proof.
  split; [reflexivity|]. split; [reflexivity|]. split; [reflexivity|].
  intros H. apply Forall_inv_tail, Forall_inv in H.
  specialize (H _ eq_refl). vm_compute in H. apply H. reflexivity.
Qed.
End ClockExamples.

(** ** Teardown *)

Section TeardownFacts.
Import GeminiLiveService.

Variable throws : Effect -> bool.

(** A loop of direct calls either makes them all and returns, or stops at
    one that throws; it does not touch the fields. *)
Lemma invoke_eq (e : Effect) (s : t) (log : list Effect) :
  invoke throws e s log
  = if throws e then (Throws e, s, log) else (Returns tt, s, log ++ [e]).
Proof. reflexivity. Qed.

Lemma forEach_invoke_cases {A} (f : A -> Effect) (l : list A) (s : t)
    (log : list Effect) :
  (Forall (fun e => throws e = false) (map f l) /\
   forEach l (fun a => invoke throws (f a)) s log
     = (Returns tt, s, log ++ map f l)) \/
  (exists e log',
     In e (map f l) /\ throws e = true /\
     forEach l (fun a => invoke throws (f a)) s log = (Throws e, s, log')).
Proof.
  revert log. induction l as [|a l IH]; intros log.
  - left. split; [constructor|]. simpl. rewrite app_nil_r. reflexivity.
  - cbn [forEach map]. unfold bind. rewrite invoke_eq.
    destruct (throws (f a)) eqn:E.
    + right. exists (f a), log. repeat split; simpl; auto.
    + destruct (IH (log ++ [f a])) as [[F ->] | (e & log' & I & T & ->)].
      * left. split; [constructor; assumption|].
        rewrite <- app_assoc. reflexivity.
      * right. exists e, log'. repeat split; simpl; auto.
Qed.

Lemma Forall_not_throwing (e : Effect) (l : list Effect) :
  Forall (fun e => throws e = false) l -> In e l -> throws e = true -> False.
Proof.
  intros F I T. rewrite Forall_forall in F. rewrite (F e I) in T. discriminate.
Qed.

(** How each kind of statement continues. *)
Lemma bind_get {A B} (field : t -> A) (k : A -> M B) s log :
  bind (get field) k s log = k (field s) s log.
Proof. reflexivity. Qed.

Lemma bind_assign {B} (update : t -> t) (k : unit -> M B) s log :
  bind (assign update) k s log = k tt (update s) log.
Proof. reflexivity. Qed.

Lemma bind_deferred {A B} (o : option A) (f : A -> Effect) (k : unit -> M B) s log :
  bind (whenSome o (fun a => defer (f a))) k s log
  = k tt s (log ++ map f (opt_list o)).
Proof. destruct o; cbn; [|rewrite app_nil_r]; reflexivity. Qed.

Lemma bind_optional {A B} (o : option A) (f : A -> Effect) (k : unit -> M B) s log :
  bind (whenSome o (fun a => invoke throws (f a))) k s log
  = bind (forEach (opt_list o) (fun a => invoke throws (f a))) k s log.
Proof.
  destruct o as [a|]; [|reflexivity]. cbn [whenSome opt_list forEach].
  unfold bind. rewrite invoke_eq. destruct (throws (f a)); reflexivity.
Qed.

Lemma bind_tracks {B} (o : option MediaStream) (k : unit -> M B) s log :
  bind (whenSome o (fun m => forEach (getTracks m)
                               (fun tr => invoke throws (track_stop tr)))) k s log
  = bind (forEach (tracks_of o) (fun tr => invoke throws (track_stop tr))) k s log.
Proof. destruct o; reflexivity. Qed.

Lemma bind_loop {A B} (f : A -> Effect) (l : list A) (k : unit -> M B) s log :
  (Forall (fun e => throws e = false) (map f l) /\
   bind (forEach l (fun a => invoke throws (f a))) k s log
     = k tt s (log ++ map f l)) \/
  (exists e log',
     In e (map f l) /\ throws e = true /\
     bind (forEach l (fun a => invoke throws (f a))) k s log
       = (Throws e, s, log')).
Proof.
  unfold bind.
  destruct (forEach_invoke_cases f l s log) as [[F ->] | (e & log' & I & T & ->)].
  - left. split; [exact F | reflexivity].
  - right. exists e, log'. repeat split; assumption.
Qed.

(** One stage of [disconnect]: a loop of direct calls. *)
Ltac stage_loop F :=
  match goal with
  | |- context [bind (forEach ?l (fun a => invoke throws (@?f a))) ?k ?s ?log] =>
      let e := fresh "e" in
      let I := fresh "I" in
      let T := fresh "T" in
      destruct (bind_loop f l k s log) as [[F ->] | (e & ? & I & T & ->)];
      [cbv beta
      |split;
       [discriminate
       |intros (F & _); exfalso; unfold direct_calls in F;
        rewrite !Forall_app in F;
        decompose [and] F;
        match goal with
        | Hf : Forall _ ?l, Hi : In _ ?l |- _ =>
            exact (Forall_not_throwing _ _ Hf Hi T)
        end]]
  end.

(** [disconnect] returns exactly when none of its direct calls throws; it
    has then made all its calls, in order, and cleared the fields that it
    assigns. *)
Lemma disconnect_returns (s s' : t) (log : list Effect) :
  run_disconnect throws s = (Returns tt, s', log) <->
  Forall (fun e => throws e = false) (direct_calls s) /\
  s' = cleared s /\ log = teardown_calls s.
Proof.
  unfold run_disconnect, disconnect.
  rewrite bind_get, bind_deferred, bind_get. cbn [app].
  stage_loop F1.
  rewrite bind_assign, bind_get, bind_tracks.
  replace (stream (set_sources [] s)) with (stream s) by reflexivity.
  stage_loop F2.
  rewrite bind_get, bind_optional.
  replace (inputSource (set_sources [] s)) with (inputSource s) by reflexivity.
  stage_loop F3.
  rewrite bind_get, bind_optional.
  replace (processor (set_sources [] s)) with (processor s) by reflexivity.
  stage_loop F4.
  rewrite bind_get, bind_optional.
  replace (inputAudioContext (set_sources [] s)) with (inputAudioContext s)
    by reflexivity.
  stage_loop F5.
  rewrite bind_get, bind_optional.
  replace (outputAudioContext (set_sources [] s)) with (outputAudioContext s)
    by reflexivity.
  stage_loop F6.
  rewrite !bind_assign. unfold assign, teardown_calls, direct_calls, cleared.
  rewrite <- !app_assoc. split.
  - intros H. injection H as <- <-. rewrite !Forall_app. repeat split; assumption.
  - intros (_ & -> & ->). reflexivity.
Qed.

(** Without a throwing call the teardown runs to its end. *)
Lemma disconnect_runs (s : t) :
  Forall (fun e => throws e = false) (direct_calls s) ->
  run_disconnect throws s = (Returns tt, cleared s, teardown_calls s).
Proof. intros F. apply disconnect_returns. auto. Qed.

(** With a throwing call among the direct ones the teardown throws. *)
Lemma disconnect_throws (s : t) :
  Exists (fun e => throws e = true) (direct_calls s) ->
  exists e s' log, run_disconnect throws s = (Throws e, s', log).
Proof.
  intros X. destruct (run_disconnect throws s) as [[[[]|e] s'] log] eqn:R.
  - apply disconnect_returns in R. destruct R as (F & _).
    apply Exists_exists in X. destruct X as (e & I & T).
    exfalso. exact (Forall_not_throwing e _ F I T).
  - exists e, s', log. reflexivity.
Qed.

(** What a completed teardown leaves calls only what the first one called. *)
Lemma direct_calls_cleared (s : t) :
  incl (direct_calls (cleared s)) (direct_calls s).
Proof.
  unfold direct_calls, cleared. cbn.
  intros e H. rewrite !in_app_iff in H. rewrite !in_app_iff.
  destruct H as [H|[H|[H|[]]]]; auto.
Qed.

Lemma cleared_idempotent (s : t) : cleared (cleared s) = cleared s.
Proof. reflexivity. Qed.

(** A second [disconnect] right after one that returned also returns, and
    changes nothing. *)
Lemma disconnect_again (s s1 : t) (log1 : list Effect) :
  run_disconnect throws s = (Returns tt, s1, log1) ->
  sources s1 = [] /\
  exists log2,
    run_disconnect throws s1 = (Returns tt, s1, log2) /\ incl log2 log1.
Proof.
  intros R. apply disconnect_returns in R. destruct R as (F & -> & ->).
  split; [reflexivity|].
  exists (teardown_calls (cleared s)). split.
  - rewrite <- (cleared_idempotent s) at 2. apply disconnect_runs.
    rewrite Forall_forall in *. intros e I. apply F, direct_calls_cleared, I.
  - unfold teardown_calls at 1. cbn [cleared sessionPromise set_sessionPromise
                                      opt_list map app].
    intros e I. unfold teardown_calls. apply in_or_app. right.
    apply direct_calls_cleared, I.
Qed.

(** A log that holds all the calls of a teardown shows the four steps. *)
Lemma teardown_calls_complete (s : t) : Teardown.complete s (teardown_calls s).
Proof.
  unfold Teardown.complete, teardown_calls, direct_calls. repeat split.
  - intros p E. rewrite E. simpl. auto.
  - intros src I. rewrite !in_app_iff. right. left. apply in_map, I.
  - intros m tr E I. rewrite E. rewrite !in_app_iff. right. right. left.
    apply in_map, I.
  - intros c E. rewrite E. rewrite !in_app_iff. simpl. tauto.
  - intros c E. rewrite E. rewrite !in_app_iff. simpl. tauto.
Qed.
End TeardownFacts.

Section TeardownOracles.
Import GeminiLiveService.

Variables throws throws' : Effect -> bool.

(** The two platforms differ at most on the deferred closure of the
    session. *)
Hypothesis same_direct :
  forall e, (forall p, e <> session_close p) -> throws' e = throws e.




End TeardownOracles.

(** ** A teardown that throws *)

Section TeardownThrows.
Import GeminiLiveService Interrupted.

Variable throws : Effect -> bool.

(** A loop that throws has made the calls before the one that threw, none
    of which throws, and has not touched the fields. *)
Lemma forEach_invoke_split {A} (f : A -> Effect) (l : list A) (s : t)
    (log : list Effect) :
  (Forall (fun e => throws e = false) (map f l) /\
   forEach l (fun a => invoke throws (f a)) s log
     = (Returns tt, s, log ++ map f l)) \/
  (exists e done rest,
     map f l = done ++ e :: rest /\ throws e = true /\
     Forall (fun c => throws c = false) done /\
     forEach l (fun a => invoke throws (f a)) s log
       = (Throws e, s, log ++ done)).
Proof.
  revert log. induction l as [|a l IH]; intros log.
  - left. split; [constructor|]. simpl. rewrite app_nil_r. reflexivity.
  - cbn [forEach map]. unfold bind. rewrite invoke_eq.
    destruct (throws (f a)) eqn:E.
    + right. exists (f a), [], (map f l). rewrite app_nil_r. auto.
    + destruct (IH (log ++ [f a]))
        as [[F ->] | (e & done & rest & M & T & F & ->)].
      * left. split; [constructor; assumption|].
        rewrite <- app_assoc. reflexivity.
      * right. exists e, (f a :: done), rest. rewrite M, <- app_assoc. auto.
Qed.

Lemma bind_loop_split {A B} (f : A -> Effect) (l : list A) (k : unit -> M B) s log :
  (Forall (fun e => throws e = false) (map f l) /\
   bind (forEach l (fun a => invoke throws (f a))) k s log
     = k tt s (log ++ map f l)) \/
  (exists e done rest,
     map f l = done ++ e :: rest /\ throws e = true /\
     Forall (fun c => throws c = false) done /\
     bind (forEach l (fun a => invoke throws (f a))) k s log
       = (Throws e, s, log ++ done)).
Proof.
  unfold bind.
  destruct (forEach_invoke_split f l s log)
    as [[F ->] | (e & done & rest & M & T & F & ->)].
  - left. split; [exact F | reflexivity].
  - right. exists e, done, rest. auto.
Qed.

Ltac stage_split F :=
  match goal with
  | |- context [bind (forEach ?l (fun a => invoke throws (@?f a))) ?k ?s ?log] =>
      let e := fresh "e" in
      let done := fresh "done" in
      let rest := fresh "rest" in
      let M := fresh "M" in
      let T := fresh "T" in
      let D := fresh "D" in
      destruct (bind_loop_split f l k s log)
        as [[F ->] | (e & done & rest & M & T & D & ->)];
      [cbv beta
      |right; exists e; eexists; eexists; split; [reflexivity|];
       split; [exact T|]; split; [|auto];
       eexists; eexists; split; [|split];
       [rewrite <- ?app_assoc; reflexivity
       |unfold direct_calls;
        match type of M with
        | map _ ?l' = ?rhs =>
            match goal with
            | |- context [map ?g l'] => change (map g l' = rhs) in M
            end
        end;
        rewrite M; rewrite <- ?app_assoc; cbn [app]; reflexivity
       |rewrite ?Forall_app; repeat split; assumption]]
  end.

(** [disconnect] either runs to its end, or throws at the first of its
    calls that throws: the calls before that one have been made, in
    program order, the later ones have not, and no field has been set to
    null (at most the set of sources has been emptied). *)
Lemma disconnect_cases (s : t) :
  run_disconnect throws s = (Returns tt, cleared s, teardown_calls s) \/
  exists e s' log,
    run_disconnect throws s = (Throws e, s', log) /\ stopped_at throws s s' log e.
Proof.
  unfold run_disconnect, disconnect, stopped_at.
  rewrite bind_get, bind_deferred, bind_get. cbn [app].
  stage_split F1.
  rewrite bind_assign, bind_get, bind_tracks.
  replace (stream (set_sources [] s)) with (stream s) by reflexivity.
  stage_split F2.
  rewrite bind_get, bind_optional.
  replace (inputSource (set_sources [] s)) with (inputSource s) by reflexivity.
  stage_split F3.
  rewrite bind_get, bind_optional.
  replace (processor (set_sources [] s)) with (processor s) by reflexivity.
  stage_split F4.
  rewrite bind_get, bind_optional.
  replace (inputAudioContext (set_sources [] s)) with (inputAudioContext s)
    by reflexivity.
  stage_split F5.
  rewrite bind_get, bind_optional.
  replace (outputAudioContext (set_sources [] s)) with (outputAudioContext s)
    by reflexivity.
  stage_split F6.
  left. rewrite !bind_assign. unfold assign, teardown_calls, direct_calls, cleared.
  rewrite <- !app_assoc. reflexivity.
Qed.
End TeardownThrows.

Section TeardownClaims.
Import GeminiLiveService.







(** C8, on the code.  After [disconnect] on a connected service that is
    playing a response, the session promise and both contexts are null
    and the set of sources is empty, but the capture stream, the input
    source and the processor still hold the handles of the session. *)
Theorem disconnect_keeps_capture_handles :
  let s' := snd (fst (run_disconnect no_throw Scenario.playing)) in
  fst (fst (run_disconnect no_throw Scenario.playing)) = Returns tt /\
  sessionPromise s' = None /\
  inputAudioContext s' = None /\
  outputAudioContext s' = None /\
  sources s' = [] /\
  stream s' = Some Scenario.media /\
  inputSource s' = Some (mkStreamSource inputContext Scenario.media) /\
  processor s' = Some (mkProcessor inputContext 4096 1 1).
Proof. vm_compute. repeat split. Qed.

(** A decode that was pending when [disconnect] ran starts nothing when it
    completes: the set of sources stays empty. *)
Lemma no_playback_after_disconnect (events : list PlaybackEvent) (s : t) :
  run_events events (cleared s) = (cleared s, []).
Proof. apply no_playback_without_context. reflexivity. Qed.

(** On any service, a [disconnect] that returns leaves these three fields
    as they were. *)
Lemma disconnect_frame (throws : Effect -> bool) (s s' : t) (log : list Effect) :
  run_disconnect throws s = (Returns tt, s', log) ->
  stream s' = stream s /\ inputSource s' = inputSource s /\
  processor s' = processor s /\ nextStartTime s' = nextStartTime s.
Proof.
  intros R. apply disconnect_returns in R. destruct R as (_ & -> & _).
  repeat split.
Qed.
End TeardownClaims.

(** ** Starting a session *)

Section SessionFacts.
Local Open Scope string_scope.
Import LiveInterface.

(** C4, on the code.  When the microphone is refused, [startSession] ends
    with the generic message, [isActive] false and no session promise.
    When the microphone is granted and the remote handshake fails,
    [connect] has already returned: [startSession] ends with [isActive]
    true, no message, and the service holds the promise that fails. *)
Theorem startSession_connect_failures :
  (forall config handshake u,
      let u' := startSession config Rejected handshake u in
      isActive u' = false /\
      error u' = "Could not access microphone or connect to API." /\
      retainedSession u' = None) /\
  (forall config media u,
      let u' := startSession config (Fulfilled media) HandshakeFailed u in
      isActive u' = true /\
      error u' = EmptyString /\
      exists p, retainedSession u' = Some p /\ settles p = HandshakeFailed).
Proof.
  split.
  - intros config handshake u. cbv zeta. repeat split.
  - intros config media u. cbv zeta. repeat split.
    eexists. split; reflexivity.
Qed.
End SessionFacts.

(** ** The PCM wire format *)

Section PcmFacts.
Local Open Scope Q_scope.
Import coqutil.Byte AudioUtils.

Lemma to_int16_range (x : Q) : (int16_min <= to_int16 x <= int16_max)%Z.
Proof. unfold to_int16, int16_min, int16_max. lia. Qed.

(** Two's complement, little-endian: what is written is read back. *)
Lemma int16_le_round_trip (v : Z) :
  (int16_min <= v <= int16_max)%Z ->
  int16_of_le (byte.of_Z v) (byte.of_Z (v / 256)) = v.
Proof.
  unfold int16_min, int16_max, int16_of_le. intros H. cbv zeta.
  rewrite !byte.unsigned_of_Z. unfold byte.wrap.
  change (2 ^ 8)%Z with 256%Z.
  destruct (Z.ltb_spec (v mod 256 + 256 * ((v / 256) mod 256)) 32768);
    Z.to_euclidean_division_equations; lia.
Qed.

Lemma clamp_range (x : Q) : -1 <= clamp x <= 1.
Proof.
  unfold clamp. split.
  - apply Q.le_max_l.
  - apply Q.max_lub; [unfold Qle; simpl; lia | apply Q.le_min_l].
Qed.

Lemma clamp_inside (x : Q) : -1 <= x <= 1 -> clamp x == x.
Proof.
  intros [Hlo Hhi]. unfold clamp.
  rewrite (Q.min_r 1 x Hhi). apply Q.max_r, Hlo.
Qed.

(** Truncation toward zero, then saturation: at most one step away. *)
Lemma truncate_saturate_error (n : Z) (d : positive) :
  (- Zpos d <= n <= Zpos d)%Z ->
  let v := Z.max (-32768) (Z.min 32767 (Z.quot (n * 32768) (Zpos d))) in
  (Z.abs (n * 32768 - v * Zpos d) <= Zpos d)%Z.
Proof.
  intros H v. subst v.
  pose proof (Z.quot_rem' (n * 32768) (Zpos d)) as E.
  assert (B : (Z.abs (Z.rem (n * 32768) (Zpos d)) < Zpos d)%Z).
  { pose proof (Z.rem_bound_abs (n * 32768) (Zpos d)). lia. }
  assert (S : (0 <= Z.rem (n * 32768) (Zpos d) * (n * 32768))%Z).
  { apply Z.rem_sign_mul. lia. }
  set (q := Z.quot (n * 32768) (Zpos d)) in *.
  set (r := Z.rem (n * 32768) (Zpos d)) in *.
  nia.
Qed.

(** The quantiser on a value already in [-1, 1]. *)
Lemma quantise_error (c : Q) :
  -1 <= c <= 1 ->
  Qabs (c - (Z.max int16_min (Z.min int16_max (truncate (c * 32768))) # 32768))
    <= 1 # 32768.
Proof.
  destruct c as [n d]. unfold Qle at 1 2. cbn [Qnum Qden]. intros [Hlo Hhi].
  unfold truncate, int16_min, int16_max. cbn [Qmult Qnum Qden].
  rewrite Pos.mul_1_r.
  assert (R : (- Zpos d <= n <= Zpos d)%Z) by lia.
  pose proof (truncate_saturate_error n d R) as T. cbv zeta in T.
  set (v := Z.max (-32768) (Z.min 32767 (Z.quot (n * 32768) (Zpos d)))) in *.
  unfold Qminus, Qplus, Qopp, Qabs, Qle. cbn [Qnum Qden].
  rewrite Pos2Z.inj_mul. nia.
Qed.

(** One sample through the quantiser and back. *)
Lemma sample_round_trip (x : Q) :
  -1 <= x <= 1 -> Qabs (x - (to_int16 x # 32768)) <= 1 # 32768.
Proof.
  intros H. unfold to_int16.
  pose proof (quantise_error (clamp x) (clamp_range x)) as E.
  set (y := Z.max int16_min (Z.min int16_max (truncate (clamp x * 32768)))
            # 32768) in *.
  assert (X : x - y == clamp x - y)
    by (rewrite (clamp_inside x H); reflexivity).
  rewrite X. exact E.
Qed.

Lemma pcm_samples_payload (x : Q) (rest : list Q) :
  pcm_samples (pcm_payload (x :: rest))
  = (to_int16 x # 32768) :: pcm_samples (pcm_payload rest).
Proof.
  unfold pcm_payload. cbn [flat_map int16_le app pcm_samples].
  rewrite (int16_le_round_trip _ (to_int16_range x)). reflexivity.
Qed.

(** C5.  Samples in [-1, 1], encoded to the PCM payload and decoded by
    [decodeAudioData], come back one for one, each within 1/32768 of the
    original. *)
Theorem pcm_round_trip (samples : list Q) (rate : positive) :
  Forall (fun x => -1 <= x <= 1) samples ->
  Forall2 (fun x y => Qabs (x - y) <= 1 # 32768)
          samples
          (channelData (decodeAudioData (data (createPcmBlob samples)) rate)).
Proof.
  cbn [createPcmBlob data decodeAudioData channelData].
  induction 1 as [|x rest Hx _ IH]; [constructor|].
  rewrite pcm_samples_payload. constructor; [|exact IH].
  apply sample_round_trip, Hx.
Qed.

Lemma pcm_round_trip_witness :
  Forall2 (fun x y => Qabs (x - y) <= 1 # 32768)
          [1; -1; 1 # 2; -1 # 3; 0]
          (channelData
             (decodeAudioData (data (createPcmBlob [1; -1; 1 # 2; -1 # 3; 0])) 24000)).
Proof.
  apply (pcm_round_trip [1; -1; 1 # 2; -1 # 3; 0] 24000).
  repeat constructor; unfold Qle; simpl; lia.
Defined.

(** The full-scale sample 1 comes back as 32767/32768, one step lower. *)
Example full_scale_sample :
  channelData (decodeAudioData (data (createPcmBlob [1; -1])) 24000)
  = [32767 # 32768; -32768 # 32768].
Proof. vm_compute. reflexivity. Qed.
End PcmFacts.

(* ===================================================================== *)
(** * Further properties *)
(* ===================================================================== *)

(** ** The setup form: what is accepted and what comes out *)

Section SetupFormMore.
Local Open Scope string_scope.
Import Js SetupForm.

Lemma nonempty_length (w : string) :
  (0 <? String.length w)%nat = false <-> w = EmptyString.
Proof. destruct w; cbn; split; intros H; try reflexivity; discriminate H. Qed.

(** No word is left exactly when every piece between commas is blank. *)
Lemma parse_words_nil (input : string) :
  parse_words input = [] <-> Forall whitespace_only (split "," input).
Proof.
  unfold parse_words. induction (split "," input) as [|p l IH]; simpl.
  - split; auto.
  - destruct (0 <? String.length (trim p))%nat eqn:E.
    + split; [discriminate|]. intros H. inversion H as [|? ? Hp _]; subst.
      apply trim_empty in Hp. rewrite Hp in E. discriminate.
    + apply nonempty_length, trim_empty in E. rewrite IH. split.
      * intros H. constructor; assumption.
      * intros H. inversion H; assumption.
  Qed.

(** X1.  [handleSubmit] refuses exactly the inputs whose pieces are all blank:
    it then sets the message and calls nothing; otherwise it calls
    [onStart] and leaves the form as it is. *)
Theorem handleSubmit_refuses_blank_input (s : State) :
  (Forall whitespace_only (split "," (wordsInput s)) ->
   handleSubmit s =
     ({| st_level := st_level s; wordsInput := wordsInput s;
         st_topic := st_topic s; st_mode := st_mode s;
         error := "Please provide at least a few words." |}, None)) /\
  (~ Forall whitespace_only (split "," (wordsInput s)) ->
   exists c, handleSubmit s = (s, Some c)).
Proof.
  unfold handleSubmit. split; intros H.
  - apply parse_words_nil in H. rewrite H. reflexivity.
  - destruct (parse_words (wordsInput s)) as [|w ws] eqn:E.
    + apply parse_words_nil in E. contradiction.
    + eexists. reflexivity.
Qed.

Lemma handleSubmit_refuses_blank_input_witness :
  snd (handleSubmit {| st_level := A1; wordsInput := " , ,, "; st_topic := "Paris";
                       st_mode := TEXT; error := EmptyString |}) = None /\
  exists c, handleSubmit Scenario.form = (Scenario.form, Some c).
Proof.
  split.
  - rewrite (proj1 (handleSubmit_refuses_blank_input
                      {| st_level := A1; wordsInput := " , ,, "; st_topic := "Paris";
                         st_mode := TEXT; error := EmptyString |})).
    + reflexivity.
    + apply parse_words_nil. reflexivity.
  - apply (proj2 (handleSubmit_refuses_blank_input Scenario.form)).
    intros H. apply parse_words_nil in H. discriminate H.
Defined.

(** *** No word holds a comma *)

Lemma split_nonempty (sep : ascii) (s : string) : split sep s <> [].
Proof.
  destruct s as [|c r]; simpl; [discriminate|].
  destruct (Ascii.eqb c sep); [discriminate|].
  destruct (split sep r); discriminate.
Qed.

Lemma split_without_separator (sep : ascii) (s : string) :
  Forall (fun p => ~ In sep (list_ascii_of_string p)) (split sep s).
Proof.
  induction s as [|c r IH]; simpl.
  - constructor; [intros [] | constructor].
  - destruct (Ascii.eqb_spec c sep) as [->|Hne].
    + constructor; [intros [] | exact IH].
    + destruct (split sep r) as [|piece pieces].
      * constructor; [|constructor]. simpl. intros [H|[]]. congruence.
      * inversion IH as [|? ? Hp Hps]; subst. constructor; [|exact Hps].
        simpl. intros [H|H]; [congruence | exact (Hp H)].
Qed.

Lemma trimStart_chars (c : ascii) (s : string) :
  In c (list_ascii_of_string (trimStart s)) -> In c (list_ascii_of_string s).
Proof.
  induction s as [|a r IH]; simpl; [auto|].
  destruct (is_whitespace a); simpl; auto.
Qed.

Lemma trimEnd_chars (c : ascii) (s : string) :
  In c (list_ascii_of_string (trimEnd s)) -> In c (list_ascii_of_string s).
Proof.
  induction s as [|a r IH]; [auto|]. rewrite trimEnd_cons.
  destruct (trimEnd r) as [|b r'] eqn:E.
  - destruct (is_whitespace a); simpl; [intros [] | intros [H|[]]; auto].
  - cbn [list_ascii_of_string]. intros [H|H]; [left; exact H | right; exact (IH H)].
Qed.

Lemma trim_chars (c : ascii) (s : string) :
  In c (list_ascii_of_string (trim s)) -> In c (list_ascii_of_string s).
Proof. intros H. apply trimStart_chars, trimEnd_chars, H. Qed.

(** X2.  The words of a configuration built by [handleSubmit] hold no comma. *)
Theorem handleSubmit_words_without_comma (s s' : State) (c : AppConfig) :
  handleSubmit s = (s', Some c) ->
  Forall (fun w => ~ In ","%char (list_ascii_of_string w)) (words c).
Proof.
  unfold handleSubmit.
  destruct (List.length (parse_words (wordsInput s)) <? 1)%nat; [discriminate|].
  intros H. injection H as _ <-. cbn [words]. apply Forall_forall.
  intros w Hw. unfold parse_words in Hw.
  apply filter_In in Hw. destruct Hw as [Hw _].
  apply in_map_iff in Hw. destruct Hw as (p & <- & Hp).
  intros Hc. apply trim_chars in Hc.
  pose proof (split_without_separator "," (wordsInput s)) as F.
  rewrite Forall_forall in F. exact (F p Hp Hc).
Qed.

Lemma handleSubmit_words_without_comma_witness :
  Forall (fun w => ~ In ","%char (list_ascii_of_string w))
         ["maison"; "chat"; "manger"; "aimer"; "le livre"].
Proof.
  apply (handleSubmit_words_without_comma initial initial
           {| level := A1;
              words := ["maison"; "chat"; "manger"; "aimer"; "le livre"];
              topic := "Daily Life"; mode := TEXT |}).
  vm_compute. reflexivity.
Defined.

(** *** Words typed with a comma and a space come out as typed *)

Lemma split_piece_then_separator (sep : ascii) (w t : string) :
  ~ In sep (list_ascii_of_string w) ->
  split sep (w ++ String sep t) = w :: split sep t.
Proof.
  induction w as [|a w IH]; intros H; cbn [append split].
  - rewrite Ascii.eqb_refl. reflexivity.
  - simpl in H. destruct (Ascii.eqb_spec a sep) as [E|_]; [elim H; auto|].
    rewrite IH by tauto. reflexivity.
Qed.

Lemma split_single_piece (sep : ascii) (w : string) :
  ~ In sep (list_ascii_of_string w) -> split sep w = [w].
Proof.
  induction w as [|a w IH]; intros H; cbn [split]; [reflexivity|].
  simpl in H. destruct (Ascii.eqb_spec a sep) as [E|_]; [elim H; auto|].
  rewrite IH by tauto. reflexivity.
Qed.

Lemma trim_after_space (w : string) : trim (String " " w) = trim w.
Proof. reflexivity. Qed.

Lemma pieces_after_space (l : list string) :
  forall x, Forall clean_word (x :: l) ->
    map trim (split "," (String " " (join ", " (x :: l)))) = x :: l.
Proof.
  unfold join. induction l as [|y l IH]; intros x H.
  - inversion H as [|? ? (_ & Ht & Hc) _]; subst. cbn [String.concat].
    rewrite split_single_piece.
    + cbn [map]. rewrite trim_after_space, Ht. reflexivity.
    + simpl. intros [E|E]; [discriminate | exact (Hc E)].
  - inversion H as [|? ? (_ & Ht & Hc) Hrest]; subst.
    change (String.concat ", " (x :: y :: l))
      with (x ++ String "," (String " " (String.concat ", " (y :: l)))).
    change (String " " (x ++ String "," (String " " (String.concat ", " (y :: l)))))
      with (String " " x ++ String "," (String " " (String.concat ", " (y :: l)))).
    rewrite split_piece_then_separator.
    + cbn [map]. rewrite trim_after_space, Ht, (IH y Hrest). reflexivity.
    + simpl. intros [E|E]; [discriminate | exact (Hc E)].
Qed.

Lemma filter_clean (l : list string) :
  Forall clean_word l -> filter (fun w => (0 <? String.length w)%nat) l = l.
Proof.
  induction 1 as [|w l (Hne & _) _ IH]; simpl; [reflexivity|].
  destruct (0 <? String.length w)%nat eqn:E.
  - rewrite IH. reflexivity.
  - apply nonempty_length in E. contradiction.
Qed.

Lemma parse_words_join (ws : list string) :
  Forall clean_word ws -> parse_words (join ", " ws) = ws.
Proof.
  intros H. unfold parse_words. destruct ws as [|w [|x l]].
  - reflexivity.
  - inversion H as [|? ? (Hne & Ht & Hc) _]; subst. unfold join. cbn [String.concat].
    rewrite split_single_piece by exact Hc. cbn [map]. rewrite Ht.
    apply filter_clean, H.
  - inversion H as [|? ? (Hne & Ht & Hc) Hrest]; subst. unfold join.
    change (String.concat ", " (w :: x :: l))
      with (w ++ String "," (String " " (String.concat ", " (x :: l)))).
    rewrite split_piece_then_separator by exact Hc. cbn [map].
    rewrite Ht. fold (join ", " (x :: l)). rewrite (pieces_after_space l x Hrest).
    apply filter_clean, H.
Qed.

(** X3.  When the field holds clean words separated by a comma and a space,
    [handleSubmit] passes exactly these words on, in order, and joining
    them again gives the field back. *)
Theorem handleSubmit_words_round_trip (s : State) (ws : list string) :
  ws <> [] ->
  Forall clean_word ws ->
  wordsInput s = join ", " ws ->
  exists c,
    handleSubmit s = (s, Some c) /\
    words c = ws /\
    join ", " (words c) = wordsInput s.
Proof.
  intros Hne Hclean Hin. unfold handleSubmit.
  rewrite Hin, (parse_words_join ws Hclean).
  destruct ws as [|w ws']; [congruence|]. cbn [List.length Nat.ltb Nat.leb].
  eexists. repeat split.
Qed.

Lemma handleSubmit_words_round_trip_witness :
  exists c,
    handleSubmit initial = (initial, Some c) /\
    words c = ["maison"; "chat"; "manger"; "aimer"; "le livre"] /\
    join ", " (words c) = wordsInput initial.
Proof.
  apply (handleSubmit_words_round_trip initial
           ["maison"; "chat"; "manger"; "aimer"; "le livre"]).
  - discriminate.
  - repeat constructor; try discriminate; simpl; intuition discriminate.
  - reflexivity.
Defined.
End SetupFormMore.

(** ** From the form to the instruction *)

Section FormToInstruction.
Local Open Scope string_scope.
Import Js Template SetupForm.

(** X5.  For a configuration built by [handleSubmit] the instruction carries
    the topic of the configuration itself, which is the topic typed or
    Daily Life, with the level chosen and every word kept: the fallback of
    the template is not reached. *)
Theorem form_instruction (s s' : State) (c : AppConfig) :
  handleSubmit s = (s', Some c) ->
  topic c = (if String.eqb (st_topic s) EmptyString then "Daily Life" else st_topic s) /\
  or_else (topic c) "General Conversation" = topic c /\
  includes (SYSTEM_INSTRUCTION_TEMPLATE c) (topic c) = true /\
  includes (SYSTEM_INSTRUCTION_TEMPLATE c) (ProficiencyLevel_value (st_level s)) = true /\
  (forall w, In w (parse_words (wordsInput s)) ->
             includes (SYSTEM_INSTRUCTION_TEMPLATE c) w = true).
Proof.
  unfold handleSubmit.
  destruct (List.length (parse_words (wordsInput s)) <? 1)%nat; [discriminate|].
  intros H. injection H as _ <-.
  assert (T : or_else (or_else (st_topic s) "Daily Life") "General Conversation"
              = or_else (st_topic s) "Daily Life").
  { unfold or_else at 1. destruct (truthy (or_else (st_topic s) "Daily Life")) eqn:E;
      [reflexivity|].
    apply truthy_false_iff in E. exfalso. revert E. apply or_else_nonempty.
    discriminate. }
  unfold SYSTEM_INSTRUCTION_TEMPLATE. cbn [level words topic mode].
  rewrite T. repeat split.
  - unfold or_else, truthy. destruct (String.eqb (st_topic s) EmptyString); reflexivity.
  - do 3 apply includes_app_r. apply includes_here.
  - apply includes_app_r, includes_here.
  - intros w Hw. do 5 apply includes_app_r.
    apply includes_app_l, includes_join, Hw.
Qed.

Lemma form_instruction_witness :
  let c := {| level := A1; words := ["maison"; "chat"]; topic := "Daily Life";
              mode := SPEECH |} in
  topic c = (if String.eqb (st_topic Scenario.form) EmptyString
             then "Daily Life" else st_topic Scenario.form) /\
  or_else (topic c) "General Conversation" = topic c /\
  includes (SYSTEM_INSTRUCTION_TEMPLATE c) (topic c) = true /\
  includes (SYSTEM_INSTRUCTION_TEMPLATE c)
           (ProficiencyLevel_value (st_level Scenario.form)) = true /\
  (forall w, In w (parse_words (wordsInput Scenario.form)) ->
             includes (SYSTEM_INSTRUCTION_TEMPLATE c) w = true).
Proof.
  cbv zeta. apply (form_instruction Scenario.form Scenario.form).
  vm_compute. reflexivity.
Defined.
End FormToInstruction.

(** ** The text chat: when a draft is sent and what is shown *)

Section ChatMore.
Local Open Scope string_scope.
Local Open Scope list_scope.
Import Js ChatInterface.

(** X6.  [handleSend] does nothing at all, to the state and to the service,
    exactly when the draft is blank, or no service is set, or a send is
    already under way. *)
Theorem handleSend_idle_iff (now1 now2 : Z) (remote : Settled (option string))
    (s : State) :
  (whitespace_only (inputValue s) \/ chatServiceRef s = None \/ isLoading s = true)
  <-> handleSend now1 now2 remote s = (s, []).
Proof.
  unfold handleSend. split.
  - intros [W | [N | L]].
    + apply trim_empty in W. rewrite W. reflexivity.
    + rewrite N. destruct (negb (truthy (trim (inputValue s)))); reflexivity.
    + rewrite L. destruct (negb (truthy (trim (inputValue s))));
        destruct (chatServiceRef s); reflexivity.
  - destruct (truthy (trim (inputValue s))) eqn:T; cbn [negb].
    + destruct (chatServiceRef s) as [svc|]; [|auto].
      destruct (isLoading s); [auto|]. intros H. discriminate H.
    + intros _. left. apply trim_empty, truthy_false_iff, T.
Qed.

(** X7.  A draft that is sent goes to the service once, as typed; the draft is
    cleared and the loading flag is down at the end.  The list grows by the
    user's message, followed by the reply when the call returns a text
    that is not empty, and by nothing else in every other case. *)
Theorem handleSend_transcript (now1 now2 : Z) (remote : Settled (option string))
    (s : State) (svc : GeminiChatService.t) :
  chatServiceRef s = Some svc ->
  isLoading s = false ->
  ~ whitespace_only (inputValue s) ->
  let s' := fst (handleSend now1 now2 remote s) in
  let sent := {| role := user; text := inputValue s; timestamp := now1 |} in
  snd (handleSend now1 now2 remote s) = [sendMessage (inputValue s)] /\
  inputValue s' = EmptyString /\
  isLoading s' = false /\
  chatServiceRef s' = Some svc /\
  (forall t,
      GeminiChatService.chat svc <> None ->
      remote = Fulfilled (Some t) -> t <> EmptyString ->
      messages s' =
        messages s ++ [sent; {| role := model; text := t; timestamp := now2 |}]) /\
  (GeminiChatService.chat svc = None \/ remote = Rejected \/
   remote = Fulfilled None \/ remote = Fulfilled (Some EmptyString) ->
   messages s' = messages s ++ [sent]).
Proof.
  intros Hsvc Hload Hnw. unfold handleSend. rewrite Hsvc, Hload.
  destruct (truthy (trim (inputValue s))) eqn:T;
    [|apply truthy_false_iff, trim_empty in T; contradiction].
  cbn [negb text fst snd]. cbv zeta.
  unfold GeminiChatService.sendMessage.
  split; [|split; [|split; [|split; [|split]]]].
  - reflexivity.
  - destruct (GeminiChatService.chat svc); [destruct remote as [[t|]|]|];
      cbn; try destruct (truthy t); reflexivity.
  - destruct (GeminiChatService.chat svc); [destruct remote as [[t|]|]|];
      cbn; try destruct (truthy t); reflexivity.
  - destruct (GeminiChatService.chat svc); [destruct remote as [[t|]|]|];
      cbn; try destruct (truthy t); cbn; exact Hsvc.
  - intros t Hchat -> Ht.
    destruct (GeminiChatService.chat svc); [|congruence]. cbn.
    destruct (truthy t) eqn:E; [|apply truthy_false_iff in E; contradiction].
    cbn. rewrite <- app_assoc. reflexivity.
  - intros [Hchat | [-> | [-> | ->]]].
    + rewrite Hchat. reflexivity.
    + destruct (GeminiChatService.chat svc); reflexivity.
    + destruct (GeminiChatService.chat svc); reflexivity.
    + destruct (GeminiChatService.chat svc); reflexivity.
Qed.

Lemma handleSend_transcript_witness :
  let s := Scenario.chat_ready "  Salut !" in
  let s' := fst (handleSend 10 20 (Fulfilled (Some "Bonjour")) s) in
  let sent := {| role := user; text := "  Salut !"; timestamp := 10 |} in
  snd (handleSend 10 20 (Fulfilled (Some "Bonjour")) s) = [sendMessage "  Salut !"] /\
  inputValue s' = EmptyString /\
  isLoading s' = false /\
  messages s' =
    messages s ++ [sent; {| role := model; text := "Bonjour"; timestamp := 20 |}].
Proof.
  cbv zeta.
  assert (Hd : ~ whitespace_only "  Salut !")
    by (intros W; apply trim_empty in W; discriminate W).
  destruct (handleSend_transcript 10 20 (Fulfilled (Some "Bonjour"))
              (Scenario.chat_ready "  Salut !")
              (GeminiChatService.mk (Some GeminiChatService.chat_handle))
              eq_refl eq_refl Hd) as (H1 & H2 & H3 & _ & H5 & _).
  split; [exact H1|]. split; [exact H2|]. split; [exact H3|].
  apply (H5 "Bonjour"); [discriminate | reflexivity | discriminate].
Defined.
End ChatMore.

(** ** Starting the chat *)

Section ChatStartFacts.
Local Open Scope string_scope.
Local Open Scope list_scope.
Import Js ChatInterface ChatStart.

(** X8.  [initChat] always ends with the loading flag down and leaves the
    draft alone.  Every failure (the constructor throws, creating the chat
    throws, the greeting is rejected) replaces the list by the apology
    alone; a greeting that returns a text replaces it by that text alone;
    a greeting that returns no text leaves the list as it was. *)
Theorem initChat_outcome (now : Z) (config : AppConfig) (startup : Startup)
    (s : State) :
  let s' := initChat now config startup s in
  isLoading s' = false /\
  inputValue s' = inputValue s /\
  (startup = constructor_throws \/ startup = create_throws \/
   startup = greeted Rejected ->
   messages s' = [{| role := model; text := apology; timestamp := now |}]) /\
  (forall t, startup = greeted (Fulfilled (Some t)) -> t <> EmptyString ->
             messages s' = [{| role := model; text := t; timestamp := now |}]) /\
  (startup = greeted (Fulfilled None) \/
   startup = greeted (Fulfilled (Some EmptyString)) ->
   messages s' = messages s).
Proof.
  cbv zeta. split; [|split; [|split; [|split]]].
  - destruct startup as [| |[[t|]|]]; cbn; try destruct (truthy t); reflexivity.
  - destruct startup as [| |[[t|]|]]; cbn; try destruct (truthy t); reflexivity.
  - intros [-> | [-> | ->]]; reflexivity.
  - intros t -> Ht. cbn.
    destruct (truthy t) eqn:E; [reflexivity|].
    apply truthy_false_iff in E. contradiction.
  - intros [-> | ->]; reflexivity.
Qed.

Lemma initChat_outcome_witness :
  messages (initChat 5 Scenario.config create_throws (Scenario.chat_ready "x"))
    = [{| role := model; text := apology; timestamp := 5 |}] /\
  messages (initChat 5 Scenario.config (greeted (Fulfilled (Some "Bonjour")))
              (Scenario.chat_ready "x"))
    = [{| role := model; text := "Bonjour"; timestamp := 5 |}] /\
  messages (initChat 5 Scenario.config (greeted (Fulfilled None))
              (Scenario.chat_ready "x"))
    = messages (Scenario.chat_ready "x").
Proof.
  split; [|split].
  - apply (proj1 (proj2 (proj2 (initChat_outcome 5 Scenario.config create_throws
                                  (Scenario.chat_ready "x"))))).
    right. left. reflexivity.
  - apply (proj1 (proj2 (proj2 (proj2 (initChat_outcome 5 Scenario.config
             (greeted (Fulfilled (Some "Bonjour"))) (Scenario.chat_ready "x")))))).
    + reflexivity.
    + discriminate.
  - apply (proj2 (proj2 (proj2 (proj2 (initChat_outcome 5 Scenario.config
             (greeted (Fulfilled None)) (Scenario.chat_ready "x")))))).
    left. reflexivity.
Defined.

(** X9.  After [initChat], a draft that is not blank is always taken: the
    user's message is appended.  If the chat was created, the call reaches
    the remote chat and a reply with a text is shown after it; if creating
    the chat threw, nothing reaches the remote chat and no reply is ever
    shown, whatever the remote side would answer.  If the constructor threw
    on a first start, no service is set and the draft is not taken. *)
Theorem initChat_then_handleSend (now now1 now2 : Z) (config : AppConfig)
    (s : State) (draft : string) (remote : Settled (option string)) :
  ~ whitespace_only draft ->
  let typed (startup : Startup) :=
    setInputValue draft (initChat now config startup s) in
  (forall reply t,
      remote = Fulfilled (Some t) -> t <> EmptyString ->
      messages (fst (handleSend now1 now2 remote (typed (greeted reply))))
      = messages (typed (greeted reply))
        ++ [{| role := user; text := draft; timestamp := now1 |};
            {| role := model; text := t; timestamp := now2 |}]) /\
  (forall reply svc,
      chatServiceRef (typed (greeted reply)) = Some svc ->
      GeminiChatService.sendMessage svc draft remote
      = (remote, [GeminiChatService.chat_sendMessage draft])) /\
  (messages (fst (handleSend now1 now2 remote (typed create_throws)))
   = messages (typed create_throws)
     ++ [{| role := user; text := draft; timestamp := now1 |}]) /\
  (forall svc,
      chatServiceRef (typed create_throws) = Some svc ->
      GeminiChatService.sendMessage svc draft remote = (Rejected, [])) /\
  (chatServiceRef s = None ->
   handleSend now1 now2 remote (typed constructor_throws)
   = (typed constructor_throws, [])).
Proof.
  intros Hd. cbv zeta.
  assert (T : truthy (trim draft) = true).
  { destruct (truthy (trim draft)) eqn:E; [reflexivity|].
    apply truthy_false_iff, trim_empty in E. contradiction. }
  unfold trim in T.
  assert (G : forall reply, exists msgs,
             setInputValue draft (initChat now config (greeted reply) s)
             = {| messages := msgs; inputValue := draft; isLoading := false;
                  chatServiceRef :=
                    Some (GeminiChatService.mk (Some GeminiChatService.chat_handle)) |}).
  { intros [[r|]|]; unfold initChat, startChat, truthy_text; cbn;
      [destruct (truthy r)| |]; eexists; reflexivity. }
  split; [|split; [|split; [|split]]].
  - intros reply t -> Ht.
    assert (Tt : truthy t = true).
    { destruct (truthy t) eqn:E; [reflexivity|].
      apply truthy_false_iff in E. contradiction. }
    destruct (G reply) as [msgs ->].
    unfold handleSend. cbn. rewrite T. cbn. rewrite Tt. cbn.
    rewrite <- app_assoc. reflexivity.
  - intros reply svc H. destruct (G reply) as [msgs E]. rewrite E in H.
    injection H as <-. reflexivity.
  - unfold handleSend. cbn. rewrite T. reflexivity.
  - intros svc H. cbn in H. injection H as <-. reflexivity.
  - intros Href. unfold handleSend. cbn. rewrite T, Href. reflexivity.
Qed.

Lemma initChat_then_handleSend_witness :
  messages (fst (handleSend 10 20 (Fulfilled (Some "Oui"))
                   (setInputValue "Salut"
                      (initChat 5 Scenario.config create_throws
                         (Scenario.chat_ready EmptyString)))))
  = messages (setInputValue "Salut"
                (initChat 5 Scenario.config create_throws
                   (Scenario.chat_ready EmptyString)))
    ++ [{| role := user; text := "Salut"; timestamp := 10 |}].
Proof.
  assert (Hd : ~ whitespace_only "Salut")
    by (intros W; apply trim_empty in W; discriminate W).
  apply (proj1 (proj2 (proj2 (initChat_then_handleSend 5 10 20 Scenario.config
           (Scenario.chat_ready EmptyString) "Salut" (Fulfilled (Some "Oui")) Hd)))).
Defined.
End ChatStartFacts.

(** ** Inbound messages and the timeline *)

Section InboundFacts.
Local Open Scope Q_scope.
Import GeminiLiveService LiveCallbacks.

Context `{R : Rounding}.
Variable decodeAudio : string -> option AudioBuffer.

Lemma onmessage_without_audio (now : Q) (message : LiveServerMessage) (s : t) :
  audio_chunk decodeAudio (now, message) = None ->
  ~ undecodable decodeAudio (now, message) ->
  fst (onmessage decodeAudio now message s) = s.
Proof.
  unfold audio_chunk, onmessage, undecodable. cbn [fst snd].
  destruct (base64Audio message) as [payload|]; [|reflexivity].
  destruct (Js.truthy payload) eqn:T.
  - destruct (decodeAudio payload) eqn:D; [discriminate|].
    intros _ H. elim H. exists payload. auto.
  - destruct (outputAudioContext s); reflexivity.
Qed.

Lemma onmessage_with_audio (now : Q) (message : LiveServerMessage) (s : t)
    (c : Chunk) :
  audio_chunk decodeAudio (now, message) = Some c ->
  fst (onmessage decodeAudio now message s)
  = fst (playAudioResponse (arrival c) (Some (decodedBuffer c)) outputNode s).
Proof.
  unfold audio_chunk, onmessage. cbn [fst snd].
  destruct (base64Audio message) as [payload|]; [|discriminate].
  destruct (Js.truthy payload); [|discriminate].
  destruct (decodeAudio payload) as [b|]; [|discriminate].
  intros H. injection H as <-. cbn [arrival decodedBuffer].
  destruct (outputAudioContext s) eqn:E; [reflexivity|].
  unfold playAudioResponse, playAudioResponse_begin. rewrite E. reflexivity.
Qed.

(** X10.  Messages without audio in their first part (a turn complete flag,
    audio only in a later part, an empty payload) leave the timeline
    alone: when every payload decodes, a sequence of messages leaves the
    service as the audio chunks alone would, handled in the same order. *)
Theorem onmessage_all_schedules_audio (arrivals : list (Q * LiveServerMessage))
    (s : t) :
  Forall (fun a => ~ undecodable decodeAudio a) arrivals ->
  onmessage_all decodeAudio arrivals s
  = fst (play_all (audio_chunks decodeAudio arrivals) s).
Proof.
  intros H. revert s. induction H as [|[now message] rest Ha _ IH]; intros s.
  - reflexivity.
  - cbn [onmessage_all audio_chunks].
    destruct (audio_chunk decodeAudio (now, message)) as [c|] eqn:E.
    + rewrite (onmessage_with_audio now message s c E), IH. cbn [play_all].
      destruct (playAudioResponse (arrival c) (Some (decodedBuffer c)) outputNode s)
        as [s1 started]. cbn [fst].
      destruct (play_all (audio_chunks decodeAudio rest) s1). reflexivity.
    + rewrite (onmessage_without_audio now message s E Ha). apply IH.
Qed.
End InboundFacts.

Section InboundExamples.
Local Open Scope Q_scope.
Local Open Scope string_scope.
Import GeminiLiveService LiveCallbacks.

Lemma onmessage_all_schedules_audio_witness :
  let audio p := mkLiveServerMessage (Some (mkServerContent
        (Some (mkModelTurn (Some [mkPart (Some (mkInlineData (Some p)))]))) None)) in
  let flag := mkLiveServerMessage (Some (mkServerContent None (Some true))) in
  let decodeAudio := fun _ : string => Some (mkAudioBuffer 24000 [0; 0]) in
  let arrivals := [(2, audio "AAAAAA=="); (2, flag); (3, audio EmptyString);
                   (3, audio "AAAAAA==")] in
  onmessage_all decodeAudio arrivals Scenario.connected
  = fst (play_all (audio_chunks decodeAudio arrivals) Scenario.connected).
Proof.
  cbv zeta. apply onmessage_all_schedules_audio.
  repeat constructor; intros (p & _ & _ & H); discriminate H.
Defined.
End InboundExamples.

(** ** Back to back, or at the clock *)

Section TimelineMore.
Local Open Scope Q_scope.
Import GeminiLiveService.

Context `{R : Rounding}.

(** Runs of the playback path compose. *)
Lemma run_events_app (before after : list PlaybackEvent) :
  forall s,
    run_events (before ++ after) s
    = (fst (run_events after (fst (run_events before s))),
       (snd (run_events before s)
        ++ snd (run_events after (fst (run_events before s))))%list).
Proof.
  induction before as [|[now|b] rest IH]; intros s.
  - cbn [app run_events fst snd]. destruct (run_events after s). reflexivity.
  - cbn [app run_events]. destruct (playAudioResponse_begin now s); apply IH.
  - cbn [app run_events].
    destruct (playAudioResponse_resume b outputNode s) as [[s1 source]|];
      [|apply IH].
    rewrite IH. destruct (run_events rest s1) as [s2 started].
    cbn [fst snd]. reflexivity.
Qed.

(** The playback path does not touch the output context. *)
Lemma run_events_context (events : list PlaybackEvent) :
  forall s, outputAudioContext (fst (run_events events s)) = outputAudioContext s.
Proof.
  induction events as [|[now|b] rest IH]; intros s; [reflexivity| |];
    cbn [run_events].
  - unfold playAudioResponse_begin.
    destruct (outputAudioContext s) eqn:E; rewrite IH; exact E.
  - unfold playAudioResponse_resume.
    destruct (outputAudioContext s) eqn:E; [|rewrite IH; exact E].
    specialize (IH (set_sources
                      (sources s ++ [mkSource b outputNode (nextStartTime s)])
                      (set_nextStartTime (round (nextStartTime s + duration b)) s))).
    cbn [sources set_nextStartTime] in IH |- *.
    destruct (run_events rest _) as [s2 started]. cbn [fst] in *.
    rewrite IH. exact E.
Qed.

(** Calls that begin one after the other, none resuming: the cursor ends
    at the largest of the cursor found and the clock readings. *)
Lemma run_events_readings (between : list Q) :
  forall s ctx,
    outputAudioContext s = Some ctx ->
    run_events (map message_taken between) s
    = (set_nextStartTime (fold_left Qmax between (nextStartTime s)) s, []).
Proof.
  induction between as [|now rest IH]; intros s ctx Hctx.
  - destruct s; reflexivity.
  - cbn [map run_events fold_left]. unfold playAudioResponse_begin.
    rewrite Hctx. rewrite (IH _ ctx) by exact Hctx. reflexivity.
Qed.

(** The largest of a bound and some readings: the bound when no reading
    is later, one of the readings otherwise. *)
Lemma fold_max_bound (between : list Q) :
  forall bound,
    bound <= fold_left Qmax between bound /\
    Forall (fun now => now <= fold_left Qmax between bound) between /\
    (Forall (fun now => now <= bound) between ->
     fold_left Qmax between bound == bound) /\
    (Exists (fun now => bound < now) between ->
     bound < fold_left Qmax between bound /\
     exists latest, In latest between /\ fold_left Qmax between bound == latest).
Proof.
  induction between as [|now rest IH]; intros bound.
  - cbn. split; [apply Qle_refl|]. split; [constructor|]. split.
    + intros _. apply Qeq_refl.
    + intros H. inversion H.
  - cbn [fold_left].
    destruct (IH (Qmax bound now)) as (Hb & Hall & Hnone & Hsome).
    pose proof (Q.le_max_l bound now) as M1.
    pose proof (Q.le_max_r bound now) as M2.
    split; [lra|]. split; [|split].
    + constructor; [lra | exact Hall].
    + intros H. inversion H as [|? ? Hnow Hrest]; subst.
      assert (E : Qmax bound now == bound) by (apply Q.max_l; exact Hnow).
      rewrite Hnone; [exact E|].
      eapply Forall_impl; [|exact Hrest]. cbv beta. intros t Ht. lra.
    + intros H.
      destruct (Qlt_le_dec bound now) as [Hlt | Hle].
      * split; [lra|].
        destruct (Qlt_le_dec (Qmax bound now) (fold_left Qmax rest (Qmax bound now)))
          as [Hgrow | Hflat].
        -- destruct Hsome as (_ & latest & Hin & Heq).
           ++ apply Exists_exists.
              destruct (Exists_dec (fun t => Qmax bound now < t) rest) as [X | X].
              ** intros t. destruct (Qlt_le_dec (Qmax bound now) t); [left | right];
                   [assumption | lra].
              ** apply Exists_exists in X. exact X.
              ** exfalso. apply Forall_Exists_neg in X.
                 assert (F : Forall (fun t => t <= Qmax bound now) rest).
                 { eapply Forall_impl; [|exact X]. cbv beta. intros t Ht.
                   destruct (Qlt_le_dec (Qmax bound now) t); [contradiction | assumption]. }
                 apply Hnone in F. lra.
           ++ exists latest. split; [right; exact Hin | exact Heq].
        -- exists now. split; [left; reflexivity|].
           assert (E : Qmax bound now == now) by (apply Q.max_r; lra).
           lra.
      * inversion H as [? ? Hnow | ? ? Hrest]; subst; [lra|].
        assert (E : Qmax bound now == bound) by (apply Q.max_l; exact Hle).
        destruct Hsome as (Hlt & latest & Hin & Heq).
        -- eapply Exists_impl; [|exact Hrest]. cbv beta. intros t Ht. lra.
        -- split; [lra|]. exists latest. split; [right; exact Hin | exact Heq].
Qed.

(** X11.  However the calls overlap, a source starts at the later of the end
    of the source started before it and the largest clock reading that a
    call has taken since: exactly at that end when no reading in between
    is later (back to back), and at the largest such reading, after a
    gap, otherwise. *)
Theorem playback_back_to_back (before : list PlaybackEvent) (b1 b2 : AudioBuffer)
    (between : list Q) (s : t) (ctx : AudioContext) :
  outputAudioContext s = Some ctx ->
  exists earlier source1 source2,
    snd (run_events (before ++ decode_done b1
                       :: map message_taken between ++ [decode_done b2]) s)
    = (earlier ++ [source1; source2])%list /\
    earlier = snd (run_events before s) /\
    buffer source1 = b1 /\ buffer source2 = b2 /\
    startedAt source2
    = fold_left Qmax between (round (startedAt source1 + duration b1)) /\
    (Forall (fun now => now <= round (startedAt source1 + duration b1)) between ->
     startedAt source2 == round (startedAt source1 + duration b1)) /\
    (Exists (fun now => round (startedAt source1 + duration b1) < now) between ->
     round (startedAt source1 + duration b1) < startedAt source2 /\
     Forall (fun now => now <= startedAt source2) between /\
     exists latest, In latest between /\ startedAt source2 == latest).
Proof.
  intros Hctx.
  set (s0 := fst (run_events before s)).
  assert (H0 : outputAudioContext s0 = Some ctx)
    by (unfold s0; rewrite run_events_context; exact Hctx).
  set (source1 := mkSource b1 outputNode (nextStartTime s0)).
  set (end1 := round (nextStartTime s0 + duration b1)).
  set (source2 := mkSource b2 outputNode (fold_left Qmax between end1)).
  exists (snd (run_events before s)), source1, source2.
  destruct (fold_max_bound between end1) as (_ & Hall & Hnone & Hsome).
  split; [|split; [reflexivity|]; split; [reflexivity|]; split; [reflexivity|];
           split; [reflexivity|]; split].
  - rewrite run_events_app. fold s0. cbn [snd]. f_equal.
    cbn [run_events]. unfold playAudioResponse_resume at 1. rewrite H0.
    cbn [sources set_nextStartTime].
    set (s1 := set_sources _ _).
    assert (H1 : outputAudioContext s1 = Some ctx) by exact H0.
    rewrite run_events_app.
    rewrite (run_events_readings between s1 ctx H1).
    cbn [fst snd app run_events]. unfold playAudioResponse_resume.
    cbn [outputAudioContext set_nextStartTime]. rewrite H1. reflexivity.
  - exact Hnone.
  - intros X. destruct (Hsome X) as (Hlt & latest & Hin & Heq).
    split; [exact Hlt|]. split; [exact Hall|].
    exists latest. split; [exact Hin | exact Heq].
Qed.

(** The sources of a run join the set in the order of the chunks, each
    with the buffer of its chunk. *)
Lemma play_all_sources (chunks : list Chunk) :
  forall (s : t) (ctx : AudioContext),
    outputAudioContext s = Some ctx ->
    exists started,
      sources (fst (play_all chunks s)) = (sources s ++ started)%list /\
      map buffer started = map decodedBuffer chunks.
Proof.
  induction chunks as [|c rest IH]; intros s ctx Hctx.
  - exists []. cbn. rewrite app_nil_r. auto.
  - cbn [play_all].
    destruct (playAudioResponse_scheduled (arrival c) (decodedBuffer c)
                outputNode s ctx Hctx)
      as (s1 & source & -> & _ & Hbuf & _ & Hctx1 & Hsrc).
    destruct (IH s1 ctx Hctx1) as (started & Hs & Hb).
    destruct (play_all rest s1) as [s2 later]. cbn [fst] in *.
    exists (source :: started). split.
    + rewrite Hs, Hsrc, <- app_assoc. reflexivity.
    + cbn [map]. rewrite Hbuf, Hb. reflexivity.
Qed.

(** X12.  Every buffer that a run has scheduled is in the set, and a teardown
    that follows stops each of them, with the ones that were there
    before, and leaves the set empty. *)
Theorem scheduled_sources_are_stopped (chunks : list Chunk) (s : t)
    (ctx : AudioContext) :
  outputAudioContext s = Some ctx ->
  let s' := fst (play_all chunks s) in
  exists started,
    sources s' = (sources s ++ started)%list /\
    map buffer started = map decodedBuffer chunks /\
    exists d log,
      run_disconnect no_throw s' = (Returns tt, d, log) /\
      sources d = [] /\
      forall source, In source (sources s ++ started)%list ->
                     In (source_stop source) log.
Proof.
  intros Hctx. cbv zeta.
  destruct (play_all_sources chunks s ctx Hctx) as (started & Hs & Hb).
  exists started. split; [exact Hs|]. split; [exact Hb|].
  exists (cleared (fst (play_all chunks s))),
         (teardown_calls (fst (play_all chunks s))).
  split; [|split].
  - apply disconnect_runs. apply Forall_forall. reflexivity.
  - reflexivity.
  - intros source Hin. rewrite <- Hs in Hin.
    apply (teardown_calls_complete (fst (play_all chunks s))), Hin.
Qed.
End TimelineMore.

Section TimelineExamples.
Local Open Scope Q_scope.
Import GeminiLiveService.

Lemma playback_back_to_back_witness :
  exists earlier source1 source2,
    snd (run_events ([message_taken 0] ++ decode_done Scenario.half_second
                       :: map message_taken [3; 16 # 5]
                          ++ [decode_done Scenario.half_second])
           Scenario.connected)
    = (earlier ++ [source1; source2])%list /\
    earlier = snd (run_events [message_taken 0] Scenario.connected) /\
    buffer source1 = Scenario.half_second /\
    buffer source2 = Scenario.half_second /\
    startedAt source2
    = fold_left Qmax [3; 16 # 5]
        (startedAt source1 + duration Scenario.half_second) /\
    (Forall (fun now => now <= startedAt source1 + duration Scenario.half_second)
            [3; 16 # 5] ->
     startedAt source2 == startedAt source1 + duration Scenario.half_second) /\
    (Exists (fun now => startedAt source1 + duration Scenario.half_second < now)
            [3; 16 # 5] ->
     startedAt source1 + duration Scenario.half_second < startedAt source2 /\
     Forall (fun now => now <= startedAt source2) [3; 16 # 5] /\
     exists latest, In latest [3; 16 # 5] /\ startedAt source2 == latest).
Proof.
  apply (@playback_back_to_back exact_arithmetic [message_taken 0]
           Scenario.half_second Scenario.half_second [3; 16 # 5]
           Scenario.connected outputContext).
  vm_compute. reflexivity.
Defined.

(** A first chunk of half a second starts at 0.  Two more chunks are taken
    at clocks 3 and 3.2 before the decode of the first of them is done:
    it starts at 3.2, not at the clock that its own call read. *)
Example late_chunk_starts_at_latest_reading :
  map (fun source => Qred (startedAt source))
      (snd (run_events [message_taken 0; decode_done Scenario.half_second;
                        message_taken 3; message_taken (16 # 5);
                        decode_done Scenario.half_second]
              Scenario.connected))
  = [0; 16 # 5].
Proof. vm_compute. reflexivity. Qed.

Lemma scheduled_sources_are_stopped_witness :
  exists started,
    sources (fst (play_all Scenario.three_chunks Scenario.connected))
      = (sources Scenario.connected ++ started)%list /\
    map buffer started = map decodedBuffer Scenario.three_chunks /\
    exists d log,
      run_disconnect no_throw (fst (play_all Scenario.three_chunks Scenario.connected))
        = (Returns tt, d, log) /\
      sources d = [] /\
      forall source, In source (sources Scenario.connected ++ started)%list ->
                     In (source_stop source) log.
Proof.
  apply (@scheduled_sources_are_stopped exact_arithmetic Scenario.three_chunks
           Scenario.connected outputContext).
  vm_compute. reflexivity.
Defined.

Lemma overlapping_calls_gapless_witness :
  gapless 0
    (snd (run_events
            [message_taken 2; message_taken 2; decode_done Scenario.half_second;
             decode_done Scenario.half_second] Scenario.connected)).
Proof.
  apply (@overlapping_calls_gapless exact_arithmetic).
  vm_compute. discriminate.
Defined.
End TimelineExamples.

Section TeardownMore.
Local Open Scope Q_scope.
Import GeminiLiveService LiveCallbacks Interrupted.

(** X14.  When [disconnect] throws, the call that threw is the first throwing
    one among its direct calls, in program order: the log holds the
    request to close the session and the direct calls before it, and
    nothing after.  The session promise, both contexts and the capture
    stream are still in their fields, not set to null; the set of sources
    is as it was or empty. *)
Theorem disconnect_stops_at_first_throw (throws : Effect -> bool) (s s' : t)
    (log : list Effect) (e : Effect) :
  run_disconnect throws s = (Throws e, s', log) ->
  throws e = true /\
  (exists done rest,
     log = map session_close (opt_list (sessionPromise s)) ++ done /\
     direct_calls s = done ++ e :: rest /\
     Forall (fun c => throws c = false) done) /\
  sessionPromise s' = sessionPromise s /\
  inputAudioContext s' = inputAudioContext s /\
  outputAudioContext s' = outputAudioContext s /\
  stream s' = stream s /\
  (sources s' = sources s \/ sources s' = []).
Proof.
  intros H.
  destruct (disconnect_cases throws s) as [R | (e0 & s0 & log0 & R & T & P & F)].
  - rewrite R in H. discriminate H.
  - rewrite R in H. injection H as <- <- <-.
    split; [exact T|]. split; [exact P|].
    destruct F as [-> | ->]; cbn; auto 10.
Qed.

Lemma disconnect_stops_at_first_throw_witness :
  exists e s' log,
    run_disconnect Scenario.stop_throws Scenario.playing = (Throws e, s', log) /\
    Scenario.stop_throws e = true /\
    sessionPromise s' = sessionPromise Scenario.playing /\
    outputAudioContext s' = outputAudioContext Scenario.playing.
Proof.
  destruct (run_disconnect Scenario.stop_throws Scenario.playing)
    as [[[[]|e] s'] log] eqn:E.
  - vm_compute in E. discriminate E.
  - exists e, s', log. split; [reflexivity|].
    destruct (disconnect_stops_at_first_throw _ _ _ _ _ E)
      as (T & _ & Hp & _ & Ho & _).
    auto.
Defined.

Context `{R : Rounding}.

(** X15.  After a [disconnect] that returned the service stays as it is: an
    [onopen] that arrives late starts no capture, and inbound messages,
    decodes that were pending and further chunks schedule nothing. *)
Theorem service_inert_after_disconnect (throws : Effect -> bool) (s d : t)
    (log : list Effect) :
  run_disconnect throws s = (Returns tt, d, log) ->
  startAudioInput d = d /\
  (forall decodeAudio arrivals, onmessage_all decodeAudio arrivals d = d) /\
  (forall events, run_events events d = (d, [])) /\
  (forall chunks, play_all chunks d = (d, [])).
Proof.
  intros H. apply disconnect_returns in H. destruct H as (_ & -> & _).
  split; [reflexivity|]. split; [|split].
  - intros decodeAudio arrivals. induction arrivals as [|[now m] rest IH];
      [reflexivity|].
    cbn [onmessage_all]. unfold onmessage.
    destruct (base64Audio m); cbn; exact IH.
  - intros events. apply no_playback_without_context. reflexivity.
  - intros chunks. induction chunks as [|c rest IH]; [reflexivity|].
    cbn [play_all]. unfold playAudioResponse, playAudioResponse_begin.
    cbn [cleared outputAudioContext set_sessionPromise set_outputAudioContext].
    rewrite IH. reflexivity.
Qed.

(** X16.  Neither [disconnect] nor [connect] moves the playback cursor: on a
    service that is connected again after a teardown, the first buffer
    starts at the cursor that the earlier session left, unless the clock
    of the new context is already past it. *)
Theorem reconnect_keeps_cursor (throws : Effect -> bool) (s d : t)
    (log : list Effect) (config : AppConfig) (media : MediaStream)
    (handshake : Handshake) (now : Q) (b : AudioBuffer) :
  run_disconnect throws s = (Returns tt, d, log) ->
  let s2 := snd (connect config (Fulfilled media) handshake d) in
  nextStartTime s2 = nextStartTime s /\
  exists s3 source,
    playAudioResponse now (Some b) outputNode s2 = (s3, Some source) /\
    startedAt source = Qmax (nextStartTime s) now /\
    (now <= nextStartTime s -> startedAt source == nextStartTime s).
Proof.
  intros H. apply disconnect_returns in H. destruct H as (_ & -> & _).
  cbv zeta. split; [reflexivity|].
  eexists _, _. split; [reflexivity|]. split; [reflexivity|].
  intros Hle. cbn. apply Q.max_l, Hle.
Qed.
End TeardownMore.

Section TeardownMoreExamples.
Local Open Scope Q_scope.
Import GeminiLiveService LiveCallbacks.

Lemma service_inert_after_disconnect_witness :
  startAudioInput (cleared Scenario.playing) = cleared Scenario.playing /\
  (forall decodeAudio arrivals,
      onmessage_all decodeAudio arrivals (cleared Scenario.playing)
      = cleared Scenario.playing) /\
  (forall events,
      run_events events (cleared Scenario.playing) = (cleared Scenario.playing, [])) /\
  (forall chunks,
      play_all chunks (cleared Scenario.playing) = (cleared Scenario.playing, [])).
Proof.
  apply (@service_inert_after_disconnect exact_arithmetic no_throw Scenario.playing
           (cleared Scenario.playing) (teardown_calls Scenario.playing)).
  vm_compute. reflexivity.
Defined.

Lemma reconnect_keeps_cursor_witness :
  let s2 := snd (connect Scenario.config (Fulfilled Scenario.media) Established
                   (cleared Scenario.playing)) in
  nextStartTime s2 = nextStartTime Scenario.playing /\
  exists s3 source,
    playAudioResponse 0 (Some Scenario.half_second) outputNode s2 = (s3, Some source) /\
    startedAt source = Qmax (nextStartTime Scenario.playing) 0 /\
    (0 <= nextStartTime Scenario.playing ->
     startedAt source == nextStartTime Scenario.playing).
Proof.
  apply (@reconnect_keeps_cursor exact_arithmetic no_throw Scenario.playing
           (cleared Scenario.playing) (teardown_calls Scenario.playing)).
  vm_compute. reflexivity.
Defined.

(** *** A source that has ended *)

Lemma delete_absent (x : AudioBufferSourceNode) (l : list AudioBufferSourceNode) :
  ~ In x l -> delete x l = l.
Proof.
  induction l as [|y l IH]; intros H; [reflexivity|]. simpl in *.
  destruct (source_eq_dec x y) as [->|_]; [elim H; auto|].
  rewrite IH by tauto. reflexivity.
Qed.

Lemma delete_members (x : AudioBufferSourceNode) (l : list AudioBufferSourceNode) :
  NoDup l -> forall y, In y (delete x l) <-> In y l /\ y <> x.
Proof.
  induction 1 as [|z l Hz Hnd IH]; intros y; simpl; [tauto|].
  destruct (source_eq_dec x z) as [->|Hne].
  - split.
    + intros Hy. split; [auto|]. intros ->. contradiction.
    + intros [[->|Hy] Hn]; [congruence | exact Hy].
  - simpl. rewrite IH. split.
    + intros [->|[Hy Hn]]; [split; [auto | congruence] | auto].
    + intros [[->|Hy] Hn]; auto.
Qed.

(** X17.  A source that has ended leaves the set and is not stopped by a later
    [disconnect]; the sources that are still in the set are all stopped.
    The listener of a source that is not in the set changes nothing. *)
Theorem ended_source_is_not_stopped (source : AudioBufferSourceNode) (s : t) :
  NoDup (sources s) ->
  (forall x, In x (sources (ended source s)) <-> In x (sources s) /\ x <> source) /\
  run_disconnect no_throw (ended source s)
    = (Returns tt, cleared s, teardown_calls (ended source s)) /\
  ~ In (source_stop source) (teardown_calls (ended source s)) /\
  (forall x, In x (sources s) -> x <> source ->
             In (source_stop x) (teardown_calls (ended source s))) /\
  (~ In source (sources s) -> ended source s = s).
Proof.
  intros Hnd. split; [|split; [|split; [|split]]].
  - intros x. apply delete_members, Hnd.
  - rewrite disconnect_runs by (apply Forall_forall; reflexivity). reflexivity.
  - unfold teardown_calls, direct_calls. rewrite !in_app_iff, !in_map_iff.
    intros [H|[H|[H|[H|[H|[H|H]]]]]]; destruct H as (x & E & Hx);
      try discriminate E.
    injection E as ->. apply (delete_members source _ Hnd) in Hx. tauto.
  - intros x Hx Hne. unfold teardown_calls, direct_calls.
    rewrite !in_app_iff. right. left. apply in_map.
    apply (delete_members source _ Hnd). auto.
  - intros Hn. unfold ended. rewrite (delete_absent _ _ Hn).
    destruct s; reflexivity.
Qed.

Lemma ended_source_is_not_stopped_witness :
  let source := mkSource (mkAudioBuffer 24000 [0; 0]) outputNode 2 in
  (forall x, In x (sources (ended source Scenario.playing))
             <-> In x (sources Scenario.playing) /\ x <> source) /\
  run_disconnect no_throw (ended source Scenario.playing)
    = (Returns tt, cleared Scenario.playing,
       teardown_calls (ended source Scenario.playing)) /\
  ~ In (source_stop source) (teardown_calls (ended source Scenario.playing)) /\
  (forall x, In x (sources Scenario.playing) -> x <> source ->
             In (source_stop x) (teardown_calls (ended source Scenario.playing))) /\
  (~ In source (sources Scenario.playing) ->
   ended source Scenario.playing = Scenario.playing).
Proof.
  cbv zeta.
  apply (ended_source_is_not_stopped
           (mkSource (mkAudioBuffer 24000 [0; 0]) outputNode 2) Scenario.playing).
  vm_compute. repeat constructor. intros [].
Defined.
End TeardownMoreExamples.

(** ** Ending a session *)

Section EndSessionFacts.
Import GeminiLiveService LiveInterface LiveSession.

(** X18.  [endSession] without a service only resets the interface.  With a
    service whose teardown runs to its end, it leaves the interface
    inactive with the volume at zero and the service torn down.  When the
    teardown throws, the two updates are not reached: the interface stays
    as active as it was and keeps its volume. *)
Theorem endSession_outcome (throws : Effect -> bool) (u : State) :
  (liveServiceRef u = None ->
   endSession throws u = (Returns tt, setVolume 0%Q (setIsActive false u), [])) /\
  (forall svc,
      liveServiceRef u = Some svc ->
      Forall (fun e => throws e = false) (direct_calls svc) ->
      endSession throws u
      = (Returns tt,
         {| isActive := false; volume := 0%Q; error := error u;
            liveServiceRef := Some (cleared svc) |},
         teardown_calls svc)) /\
  (forall svc,
      liveServiceRef u = Some svc ->
      Exists (fun e => throws e = true) (direct_calls svc) ->
      exists e u' log,
        endSession throws u = (Throws e, u', log) /\
        isActive u' = isActive u /\ volume u' = volume u /\ error u' = error u).
Proof.
  unfold endSession. split; [|split].
  - intros ->. reflexivity.
  - intros svc -> F. rewrite (disconnect_runs throws svc F). reflexivity.
  - intros svc -> X.
    destruct (disconnect_throws throws svc X) as (e & s' & log & ->).
    exists e, (setRef (Some s') u), log. repeat split.
Qed.

Lemma endSession_outcome_witness :
  endSession no_throw
    (startSession Scenario.config (Fulfilled Scenario.media) Established initial)
  = (Returns tt,
     {| isActive := false; volume := 0%Q; error := EmptyString;
        liveServiceRef :=
          Some (cleared (snd (connect Scenario.config (Fulfilled Scenario.media)
                                Established
                                (set_onVolumeChange (Some call_setVolume) new)))) |},
     teardown_calls (snd (connect Scenario.config (Fulfilled Scenario.media)
                            Established
                            (set_onVolumeChange (Some call_setVolume) new)))).
Proof.
  apply (proj1 (proj2 (endSession_outcome no_throw
           (startSession Scenario.config (Fulfilled Scenario.media) Established
              initial)))).
  - reflexivity.
  - apply Forall_forall. reflexivity.
Defined.
End EndSessionFacts.

(** ** Silence and full scale *)

Section VolumeMore.
Local Open Scope Q_scope.
Import GeminiLiveService.

Lemma byte_value_zero (b : Byte.byte) : byte_value b = 0%Z <-> b = Byte.x00.
Proof.
  unfold byte_value. split; [|intros ->; reflexivity].
  intros H. assert (E : Byte.to_N b = 0%N) by lia.
  pose proof (Byte.of_to_N b) as O. rewrite E in O. cbn in O. congruence.
Qed.

Lemma byte_value_full (b : Byte.byte) : byte_value b = 255%Z <-> b = Byte.xff.
Proof.
  unfold byte_value. split; [|intros ->; reflexivity].
  intros H. assert (E : Byte.to_N b = 255%N) by lia.
  pose proof (Byte.of_to_N b) as O. rewrite E in O. cbn in O. congruence.
Qed.

Lemma sum_zero (l : list Byte.byte) :
  fold_right Z.add 0%Z (map byte_value l) = 0%Z <-> Forall (eq Byte.x00) l.
Proof.
  induction l as [|b l IH]; cbn [map fold_right].
  - split; [constructor | reflexivity].
  - pose proof (byte_value_range b). pose proof (sum_range l). split.
    + intros H1. constructor.
      * symmetry. apply byte_value_zero. lia.
      * apply IH. lia.
    + intros F. inversion F as [|? ? Hb Hl]; subst.
      apply IH in Hl. rewrite Hl. reflexivity.
Qed.

Lemma sum_full (l : list Byte.byte) :
  fold_right Z.add 0%Z (map byte_value l) = (255 * Z.of_nat (List.length l))%Z
  <-> Forall (eq Byte.xff) l.
Proof.
  induction l as [|b l IH]; cbn [map fold_right List.length].
  - split; [constructor | reflexivity].
  - pose proof (byte_value_range b). pose proof (sum_range l). split.
    + intros H1. constructor.
      * symmetry. apply byte_value_full. lia.
      * apply IH. lia.
    + intros F. inversion F as [|? ? Hb Hl]; subst.
      apply IH in Hl. rewrite Hl. change (byte_value Byte.xff) with 255%Z. lia.
Qed.

Lemma quotient_eq (a c : Z) (n : nat) :
  (0 < n)%nat ->
  inject_Z a / inject_Z (Z.of_nat n) == inject_Z c <-> a = (c * Z.of_nat n)%Z.
Proof.
  intros Hn. destruct n as [|n]; [lia|].
  unfold Qeq, Qdiv, Qmult, Qinv, inject_Z. cbn [Qnum Qden].
  rewrite Nat2Z.inj_succ. destruct (Z.succ (Z.of_nat n)) eqn:E; try lia.
  cbn [Qnum Qden]. lia.
Qed.

(** X19.  The volume reported is 0 exactly when every bin is 0 and 255 exactly
    when every bin is 255. *)
Theorem volume_extremes (s : t) (dataArray : list Byte.byte) :
  List.length dataArray = frequencyBinCount ->
  onVolumeChange s = Some call_setVolume ->
  exists v,
    onaudioprocess_volume s dataArray = Some (Some v) /\
    (v == 0 <-> Forall (eq Byte.x00) dataArray) /\
    (v == 255 <-> Forall (eq Byte.xff) dataArray).
Proof.
  intros Hlen Hcb.
  assert (Hne : dataArray <> []) by (intros ->; discriminate Hlen).
  assert (Hpos : (0 < List.length dataArray)%nat)
    by (destruct dataArray; [congruence | simpl; lia]).
  exists (mean dataArray). split; [|split].
  - unfold onaudioprocess_volume. rewrite (reduce_add_sum _ Hne), Hcb. reflexivity.
  - unfold mean. change 0 with (inject_Z 0).
    rewrite (quotient_eq _ 0 _ Hpos), <- sum_zero. lia.
  - unfold mean. change 255 with (inject_Z 255).
    rewrite (quotient_eq _ 255 _ Hpos), <- sum_full. lia.
Qed.

Lemma volume_extremes_witness :
  exists v,
    onaudioprocess_volume Scenario.connected (repeat Byte.x00 frequencyBinCount)
      = Some (Some v) /\
    (v == 0 <-> Forall (eq Byte.x00) (repeat Byte.x00 frequencyBinCount)) /\
    (v == 255 <-> Forall (eq Byte.xff) (repeat Byte.x00 frequencyBinCount)).
Proof.
  apply (volume_extremes Scenario.connected (repeat Byte.x00 frequencyBinCount)).
  - vm_compute. reflexivity.
  - reflexivity.
Defined.
End VolumeMore.

(** ** The pulse of the visualizer *)

Section PulseFacts.
Local Open Scope Q_scope.
Import Visualizer.

Context `{R : Rounding}.

Lemma round_nonneg (x : Q) : 0 <= x -> 0 <= round x.
Proof. intros H. rewrite <- round_zero. apply round_monotone, H. Qed.

Lemma quotient_monotone (x y c : Q) : 0 < c -> x <= y -> x / c <= y / c.
Proof.
  intros Hc H. unfold Qdiv. apply Qmult_le_compat_r; [exact H|].
  apply Qlt_le_weak, Qinv_lt_0_compat, Hc.
Qed.

Lemma quotient_nonneg (x c : Q) : 0 < c -> 0 <= x -> 0 <= x / c.
Proof.
  intros Hc H. apply Qle_shift_div_l; [exact Hc|]. rewrite Qmult_0_l. exact H.
Qed.

Lemma dynamicRadius_monotone (v w : Q) : v <= w -> dynamicRadius v <= dynamicRadius w.
Proof.
  intros H. unfold dynamicRadius. apply round_monotone.
  assert (round (v / 2) <= round (w / 2))
    by (apply round_monotone, quotient_monotone; [reflexivity | exact H]).
  lra.
Qed.

Lemma pulseAlpha_monotone (v w : Q) : v <= w -> pulseAlpha v <= pulseAlpha w.
Proof.
  intros H. unfold pulseAlpha. apply Q.min_le_compat_l, round_monotone.
  assert (round (v / 100) <= round (w / 100))
    by (apply round_monotone, quotient_monotone; [reflexivity | exact H]).
  lra.
Qed.

(** X20.  For a volume in the range that is reported, the pulse is never
    smaller than the core circle nor larger than at full volume, its
    opacity stays between the two constants of the code, and both grow
    with the volume. *)
Theorem pulse_within_bounds (volume : Q) :
  0 <= volume <= 255 ->
  baseRadius <= dynamicRadius volume <= dynamicRadius 255 /\
  round (2 # 10) <= pulseAlpha volume <= round (8 # 10) /\
  (forall louder, volume <= louder ->
     dynamicRadius volume <= dynamicRadius louder /\
     pulseAlpha volume <= pulseAlpha louder).
Proof.
  intros [Hlo Hhi]. split; [split|split; [split|]].
  - unfold dynamicRadius, baseRadius.
    rewrite <- (round_idempotent 60) at 1. apply round_monotone.
    assert (0 <= round (volume / 2))
      by (apply round_nonneg, quotient_nonneg; [reflexivity | exact Hlo]).
    lra.
  - apply dynamicRadius_monotone, Hhi.
  - unfold pulseAlpha. apply Q.min_glb.
    + apply round_monotone. unfold Qle. simpl. lia.
    + rewrite <- (round_idempotent (2 # 10)) at 1. apply round_monotone.
      assert (0 <= round (volume / 100))
        by (apply round_nonneg, quotient_nonneg; [reflexivity | exact Hlo]).
      lra.
  - apply Q.le_min_l.
  - intros louder H. split;
      [apply dynamicRadius_monotone | apply pulseAlpha_monotone]; exact H.
Qed.
End PulseFacts.

Section PulseExamples.
Local Open Scope Q_scope.
Import Visualizer.

Lemma pulse_within_bounds_witness :
  60 <= @dynamicRadius exact_arithmetic (255 # 2) <= 375 # 2 /\
  2 # 10 <= @pulseAlpha exact_arithmetic (255 # 2) <= 8 # 10 /\
  (forall louder, 255 # 2 <= louder ->
     @dynamicRadius exact_arithmetic (255 # 2) <= @dynamicRadius exact_arithmetic louder /\
     @pulseAlpha exact_arithmetic (255 # 2) <= @pulseAlpha exact_arithmetic louder).
Proof.
  destruct (@pulse_within_bounds exact_arithmetic (255 # 2)) as ((A & B) & C & D).
  - split; unfold Qle; simpl; lia.
  - split; [split; [exact A|]|split; [exact C | exact D]].
    eapply Qle_trans; [exact B|]. unfold Qle. vm_compute. discriminate.
Defined.
End PulseExamples.

(** ** The screens of the application *)

Section AppFacts.
Local Open Scope string_scope.
Import App.

(** X21.  The component never renders nothing: the setup form is shown
    without a configuration, the chat for the text mode and the live
    interface for the speech mode.  A form that [handleSubmit] accepts
    leads to the screen of the mode chosen, with the configuration it
    built; a form it refuses leaves the setup form; going back returns to
    the setup form. *)
Theorem submit_shows_the_mode_screen (form : SetupForm.State) :
  (forall config, render config <> nothing) /\
  (forall form' c,
      SetupForm.handleSubmit form = (form', Some c) ->
      mode c = SetupForm.st_mode form /\
      render (snd (submit form None))
      = match SetupForm.st_mode form with
        | TEXT => ChatInterfaceScreen c
        | SPEECH => LiveInterfaceScreen c
        end /\
      render (handleBack (snd (submit form None))) = SetupFormScreen) /\
  (snd (SetupForm.handleSubmit form) = None ->
   render (snd (submit form None)) = SetupFormScreen).
Proof.
  split; [|split].
  - intros [c|]; [|discriminate]. unfold render.
    destruct (mode c); discriminate.
  - intros form' c H. unfold submit. rewrite H. cbn [snd handleStart].
    assert (M : mode c = SetupForm.st_mode form).
    { unfold SetupForm.handleSubmit in H.
      destruct (List.length (SetupForm.parse_words (SetupForm.wordsInput form)) <? 1)%nat;
        [discriminate|]. injection H as _ <-. reflexivity. }
    split; [exact M|]. split; [|reflexivity].
    unfold render, handleStart. rewrite M.
    destruct (SetupForm.st_mode form); reflexivity.
  - unfold submit. destruct (SetupForm.handleSubmit form) as [form' [c|]];
      [discriminate | reflexivity].
Qed.

Lemma submit_shows_the_mode_screen_witness :
  exists c,
    mode c = SPEECH /\
    render (snd (submit Scenario.form None)) = LiveInterfaceScreen c /\
    render (handleBack (snd (submit Scenario.form None))) = SetupFormScreen.
Proof.
  exists {| level := A1; words := ["maison"; "chat"]; topic := "Daily Life";
            mode := SPEECH |}.
  apply (proj1 (proj2 (submit_shows_the_mode_screen Scenario.form)) Scenario.form).
  vm_compute. reflexivity.
Defined.
End AppFacts.

(** ** The instruction, for every configuration *)

Section InstructionExamples.
Local Open Scope string_scope.
Import Js Template.

Lemma template_interpolates_witness :
  includes (SYSTEM_INSTRUCTION_TEMPLATE Scenario.config) "chat" = true.
Proof.
  apply (proj2 (proj2 (template_interpolates Scenario.config)) "chat").
  simpl. auto.
Defined.
End InstructionExamples.

Section ChatIdleExample.
Local Open Scope string_scope.
Import Js ChatInterface.

Lemma handleSend_idle_iff_witness :
  handleSend 10 20 (Fulfilled (Some "Oui"))
    {| messages := []; inputValue := "Salut"; isLoading := true;
       chatServiceRef :=
         Some (GeminiChatService.mk (Some GeminiChatService.chat_handle)) |}
  = ({| messages := []; inputValue := "Salut"; isLoading := true;
        chatServiceRef :=
          Some (GeminiChatService.mk (Some GeminiChatService.chat_handle)) |}, []).
Proof.
  apply (proj1 (handleSend_idle_iff 10 20 (Fulfilled (Some "Oui")) _)).
  right. right. reflexivity.
Defined.
End ChatIdleExample.
